(** * sklt: Sway keyboard layout and time

    A shallow embedding of [sklt.go] (device registry, layout monitor,
    status loop) and of the Sway IPC codec, with the properties of the
    natural-language specification stated and settled against it. *)

From Stdlib Require Import ZArith Lia.
From stdpp Require Import base strings list gmap.

Local Open Scope string_scope.

(** The Go string ["\n"]: one line feed. *)
Definition LF : string := String (Ascii.ascii_of_nat 10) "".

(** ** Device registry *)

Module Registry.

(** [type kbdDev struct{ layout, prevDev, nextDev string }] *)
Record kbdDev := KbdDev {
  layout : string;
  prevDev : string;
  nextDev : string
}.

(** The zero value of [kbdDev], returned by a Go map read of an absent
    key. *)
Definition zeroDev : kbdDev := KbdDev "" "" "".

Definition with_layout (d : kbdDev) (l : string) : kbdDev :=
  KbdDev l (prevDev d) (nextDev d).
Definition with_prevDev (d : kbdDev) (p : string) : kbdDev :=
  KbdDev (layout d) p (nextDev d).
Definition with_nextDev (d : kbdDev) (n : string) : kbdDev :=
  KbdDev (layout d) (prevDev d) n.

(** The registry part of [type monitor struct].  [kbds] is [None] for the
    nil map the struct starts with.  The socket [s] and the channel [ch]
    are not touched by [set] and [del]; the value sent on [ch] is the
    second component of [publish] below. *)
Record monitor := Monitor {
  kbds : option (gmap string kbdDev);
  lastKbd : string;
  prevLayout : string
}.

(** [m := monitor{ch: make(chan string)}] *)
Definition newMonitor : monitor := Monitor None "" "".

(** [g[id]] on a non-nil map: the record, or the zero value. *)
Definition at_key (g : gmap string kbdDev) (id : string) : kbdDev :=
  default zeroDev (g !! id).

(** [self.kbds[id]], where reading a nil map gives the zero value too. *)
Definition kbds_at (self : monitor) (id : string) : kbdDev :=
  match kbds self with
  | Some g => at_key g id
  | None => zeroDev
  end.

(** The two relinking blocks shared by [del] and [set]:
<<
    if len(l1.prevDev) > 0 { l2 := kbds[l1.prevDev]; l2.nextDev = l1.nextDev; kbds[l1.prevDev] = l2 }
    if len(l1.nextDev) > 0 { l2 := kbds[l1.nextDev]; l2.prevDev = l1.prevDev; kbds[l1.nextDev] = l2 }
>> *)
Definition relink_prev (l1 : kbdDev) (g : gmap string kbdDev) : gmap string kbdDev :=
  if decide (0 < String.length (prevDev l1)) then
    <[prevDev l1 := with_nextDev (at_key g (prevDev l1)) (nextDev l1)]> g
  else g.

Definition relink_next (l1 : kbdDev) (g : gmap string kbdDev) : gmap string kbdDev :=
  if decide (0 < String.length (nextDev l1)) then
    <[nextDev l1 := with_prevDev (at_key g (nextDev l1)) (prevDev l1)]> g
  else g.

Definition unlink (l1 : kbdDev) (g : gmap string kbdDev) : gmap string kbdDev :=
  relink_next l1 (relink_prev l1 g).

(** [func (self *monitor) del(id string)] *)
Definition del (self : monitor) (id : string) : monitor :=
  if decide (String.length id = 0) then self
  else match kbds self with
       | None => self
       | Some g =>
           let l1 := at_key g id in
           let g' := unlink l1 (delete id g) in
           Monitor (Some g')
                   (if decide (lastKbd self = id) then prevDev l1 else lastKbd self)
                   (prevLayout self)
       end.

(** [func (self *monitor) set(id, l string)] *)
Definition set (self : monitor) (id l : string) : monitor :=
  if decide (String.length l = 0) then del self id
  else
    let g := default ∅ (kbds self) in
    let l1 := at_key g id in
    if decide (layout l1 = l) then Monitor (Some g) (lastKbd self) (prevLayout self)
    else
      let l1 := with_layout l1 l in
      if decide (lastKbd self ≠ id) then
        let g' := unlink l1 g in
        let l1' := with_nextDev (with_prevDev l1 (lastKbd self)) "" in
        Monitor (Some (<[id := l1']> g')) id (prevLayout self)
      else
        Monitor (Some (<[id := l1]> g)) (lastKbd self) (prevLayout self).

(** [self.kbds[self.lastKbd].layout], the value the monitor reports. *)
Definition currentLayout (self : monitor) : string :=
  layout (kbds_at self (lastKbd self)).

(** The tail of one iteration of [watchLayouts], after [ReadMessage]
    returned without error: the new monitor and the value sent on [ch],
    if any. *)
Definition publish (self : monitor) : monitor * option string :=
  let nl := currentLayout self in
  if decide (prevLayout self = nl) then (self, None)
  else (Monitor (kbds self) (lastKbd self) nl, Some nl).

(** Registry operations as data, and their execution in order. *)
Inductive op :=
| OpSet (id l : string)
| OpDel (id : string).

Definition apply_op (self : monitor) (o : op) : monitor :=
  match o with
  | OpSet id l => set self id l
  | OpDel id => del self id
  end.

Definition run (ops : list op) : monitor := foldl apply_op newMonitor ops.

(** *** Shape predicates on the registry map *)

(** Every record of the map has an empty forward link. *)
Definition next_all_empty (g : gmap string kbdDev) : Prop :=
  ∀ k r, g !! k = Some r → nextDev r = "".

(** Symmetry of the links between records [a] and [b] of the map:
    [a.nextDev] names [b] exactly when [b.prevDev] names [a]. *)
Definition links_symmetric (g : gmap string kbdDev) : Prop :=
  ∀ a b ra rb, g !! a = Some ra → g !! b = Some rb →
    (nextDev ra = b ↔ prevDev rb = a).

(** Follow [prevDev] links [n] times starting at [a]; [None] when the walk
    leaves the map or meets an empty link. *)
Fixpoint prev_walk (g : gmap string kbdDev) (n : nat) (a : string) : option string :=
  match n with
  | O => Some a
  | S n' =>
      match g !! a with
      | Some r =>
          if decide (0 < String.length (prevDev r)) then prev_walk g n' (prevDev r)
          else None
      | None => None
      end
  end.

(** A [prevDev] cycle of length [n] through [a]. *)
Definition prev_cycle (g : gmap string kbdDev) (n : nat) (a : string) : Prop :=
  0 < n ∧ is_Some (g !! a) ∧ prev_walk g n a = Some a.

Definition no_short_cycle (g : gmap string kbdDev) : Prop :=
  ∀ a n, n < size g → ¬ prev_cycle g n a.

(** The tail pointer names a record of the map whose forward link is
    empty. *)
Definition tail_is_record (self : monitor) : Prop :=
  ∃ g r, kbds self = Some g ∧ g !! lastKbd self = Some r ∧ nextDev r = "".

(** The record for [id] is present and has layout [l]. *)
Definition has_layout (self : monitor) (id l : string) : Prop :=
  ∃ g r, kbds self = Some g ∧ g !! id = Some r ∧ layout r = l.

(** The forward links of all records are empty. *)
Definition next_empty_inv (self : monitor) : Prop :=
  ∀ g, kbds self = Some g → next_all_empty g.

End Registry.

(** ** The registry as the specification words it

    A recency list of (identifier, layout) pairs, oldest first.  [set]
    with an empty layout deletes; with an unchanged layout it does
    nothing; otherwise the device moves to (or is created at) the tail.
    [delete] removes the device.  [currentLayout] is the layout at the
    tail, or empty. *)

Module RegistrySpec.

Abbreviation state := (list (string * string)).

Definition remove (id : string) (s : state) : state :=
  filter (λ p, p.1 ≠ id) s.

Fixpoint find (id : string) (s : state) : option string :=
  match s with
  | [] => None
  | (k, l) :: s' => if decide (k = id) then Some l else find id s'
  end.

Definition delete (s : state) (id : string) : state := remove id s.

Definition set (s : state) (id l : string) : state :=
  if decide (l = "") then delete s id
  else if decide (find id s = Some l) then s
  else (remove id s ++ [(id, l)])%list.

Definition currentLayout (s : state) : string :=
  match last s with
  | Some (_, l) => l
  | None => ""
  end.

Definition apply_op (s : state) (o : Registry.op) : state :=
  match o with
  | Registry.OpSet id l => set s id l
  | Registry.OpDel id => delete s id
  end.

Definition run (ops : list Registry.op) : state := foldl apply_op [] ops.

(** The devices still present. *)
Definition live (s : state) : list string := s.*1.

(** The identifier at the tail, or empty. *)
Definition mostRecentId (s : state) : string :=
  match last s with
  | Some (id, _) => id
  | None => ""
  end.

(** The code's registry stores for every device the layout the
    specification has for it (empty when it has none). *)
Definition layouts_agree (m : Registry.monitor) (s : state) : Prop :=
  ∀ id, Registry.layout (Registry.kbds_at m id) = default "" (find id s).

(** Operations on a named device, and [set] calls that carry a layout. *)
Definition names_device (o : Registry.op) : Prop :=
  match o with
  | Registry.OpSet id _ => id ≠ ""
  | Registry.OpDel id => id ≠ ""
  end.

Definition sets_layout (o : Registry.op) : Prop :=
  match o with
  | Registry.OpSet _ l => l ≠ ""
  | Registry.OpDel _ => False
  end.

End RegistrySpec.

(** ** Errors

    Go [error] values the program creates or compares.  [ErrNoIPC] is a
    package variable compared by identity in [main], so it has a
    constructor of its own; [ErrNew msg] is a fresh [errors.New(msg)];
    [ErrExternal] stands for the errors of [net] and [encoding/json],
    which the program only passes on. *)

Inductive error :=
| EOF                       (* io.EOF *)
| ErrUnexpectedEOF          (* io.ErrUnexpectedEOF *)
| ErrShortWrite             (* io.ErrShortWrite *)
| ErrNoIPC                  (* var ErrNoIPC *)
| ErrNew (msg : string)     (* errors.New(msg) *)
| ErrExternal (msg : string).

#[global] Instance error_eq_dec : EqDecision error.
Proof. solve_decision. Defined.

(** [err.Error()] *)
Definition Error (e : error) : string :=
  match e with
  | EOF => "EOF"
  | ErrUnexpectedEOF => "unexpected EOF"
  | ErrShortWrite => "short write"
  | ErrNoIPC => "Sway IPC socket path is unknown"
  | ErrNew msg => msg
  | ErrExternal msg => msg
  end.

(** The error kinds of the specification. *)
Inductive error_kind := IOError | ProtocolError | ConfigurationError | OtherError.

Definition kind_of (e : error) : error_kind :=
  match e with
  | EOF | ErrUnexpectedEOF | ErrShortWrite => IOError
  | ErrNoIPC => ConfigurationError
  | ErrNew _ => ProtocolError
  | ErrExternal _ => OtherError
  end.

(** ** Sway IPC codec *)

Module Ipc.

Import Stdlib.Init.Byte.
Local Open Scope Z_scope.

#[global] Instance byte_eq_dec : EqDecision byte := Byte.byte_eq_dec.

(** [var Magic = [6]byte{'i', '3', '-', 'i', 'p', 'c'}] *)
Definition Magic : list byte := [x69; x33; x2d; x69; x70; x63].

(** [type MessageType uint32]: a [Z] in [0, 2^32). *)
Definition MessageType := Z.

Definition SUBSCRIBE : MessageType := 2.
Definition GET_INPUTS : MessageType := 100.
Definition InputEvent : MessageType := 0x80000015.

(** [uint32(x)] *)
Definition uint32 (x : Z) : Z := x mod 2 ^ 32.

(** [type MessageHeader struct { Magic [6]byte; Length uint32; Type MessageType }] *)
Record MessageHeader := Header {
  hdrMagic : list byte;
  hdrLength : Z;
  hdrType : MessageType
}.

(** A header value as Go can hold it. *)
Definition header_wf (h : MessageHeader) : Prop :=
  length (hdrMagic h) = 6%nat ∧ 0 ≤ hdrLength h < 2 ^ 32 ∧ 0 ≤ hdrType h < 2 ^ 32.

(** *** [encoding/binary] with [ByteOrder = binary.LittleEndian] *)

(** [byte(v)] and [uint32(b)] *)
Definition byte_of_Z (v : Z) : byte :=
  default x00 (Byte.of_N (Z.to_N (Z.land v 255))).
Definition Z_of_byte (b : byte) : Z := Z.of_N (Byte.to_N b).

(** [LittleEndian.PutUint32] *)
Definition PutUint32 (v : Z) : list byte :=
  [byte_of_Z v; byte_of_Z (Z.shiftr v 8);
   byte_of_Z (Z.shiftr v 16); byte_of_Z (Z.shiftr v 24)].

(** [LittleEndian.Uint32] *)
Definition Uint32 (b : list byte) : Z :=
  match b with
  | [b0; b1; b2; b3] =>
      Z.lor (Z.lor (Z.lor (Z_of_byte b0) (Z.shiftl (Z_of_byte b1) 8))
                   (Z.shiftl (Z_of_byte b2) 16))
            (Z.shiftl (Z_of_byte b3) 24)
  | _ => 0
  end.

(** The 14 bytes [binary.Write] produces for a header, field by field. *)
Definition encode_header (h : MessageHeader) : list byte :=
  (hdrMagic h ++ PutUint32 (hdrLength h) ++ PutUint32 (hdrType h))%list.

(** The header [binary.Read] fills from 14 bytes. *)
Definition decode_header (bs : list byte) : MessageHeader :=
  Header (take 6 bs) (Uint32 (take 4 (drop 6 bs))) (Uint32 (take 4 (drop 10 bs))).

Definition header_size : nat := 14%nat.

(** *** Readers

    The connection is modelled by the bytes it still has to deliver; a
    [Read] hands over as many of them as were asked for, and reports
    [io.EOF] once none is left. *)
Definition stream := list byte.

Definition stream_Read (n : nat) (s : stream) : list byte * option error * stream :=
  match s with
  | [] => ([], Some EOF, [])
  | _ => (take n s, None, drop n s)
  end.

(** [io.ReadFull(r, buf)] with [len(buf) = n]. *)
Definition ReadFull (n : nat) (s : stream) : (list byte + error) * stream :=
  if decide (n ≤ length s)%nat then (inl (take n s), drop n s)
  else match s with
       | [] => (inr EOF, [])
       | _ => (inr ErrUnexpectedEOF, [])
       end.

(** [binary.Read(r, ByteOrder, &h)] *)
Definition binary_Read (s : stream) : (MessageHeader + error) * stream :=
  match ReadFull header_size s with
  | (inl bs, s') => (inl (decode_header bs), s')
  | (inr e, s') => (inr e, s')
  end.

(** [io.LimitedReader{R: r, N: n}] *)
Record LimitedReader := Limited { R : stream; N : Z }.

(** [LimitedReader.Read(p)] with [len(p) = n]. *)
Definition Limited_Read (n : nat) (l : LimitedReader) : list byte * option error * LimitedReader :=
  if decide (N l ≤ 0) then ([], Some EOF, l)
  else
    let n := if decide (Z.of_nat n > N l) then Z.to_nat (N l) else n in
    let '(bs, err, s') := stream_Read n (R l) in
    (bs, err, Limited s' (N l - Z.of_nat (length bs))).

(** A limited reader after [k] of its bytes were read. *)
Definition advance (k : nat) (l : LimitedReader) : LimitedReader :=
  Limited (drop k (R l)) (N l - Z.of_nat k).

(** The bytes a limited reader can still deliver. *)
Definition contents (l : LimitedReader) : list byte := take (Z.to_nat (N l)) (R l).

(** *** Handlers

    [type MessageHandler func(t MessageType, payload io.Reader) error].
    All a handler can do with its payload is [Read] from it, any number
    of times, and return; [HRead n k] reads into a buffer of [n] bytes
    and goes on with what [Read] returned. *)
Inductive handler :=
| HReturn (err : option error)
| HRead (n : nat) (k : list byte → option error → handler).

Definition MessageHandler := MessageType → handler.

Fixpoint run_handler (h : handler) (p : LimitedReader) : option error * LimitedReader :=
  match h with
  | HReturn err => (err, p)
  | HRead n k =>
      let '(bs, err, p') := Limited_Read n p in
      run_handler (k bs err) p'
  end.

(** [io.Copy(ioutil.Discard, p)]: [Discard] reads into an 8192-byte
    buffer until [Read] fails, and turns [io.EOF] into success.  Every
    round without an error consumes a byte of the stream, so its length
    bounds the number of rounds. *)
Definition discard_buffer : nat := Z.to_nat 8192.

Fixpoint discard_loop (fuel : nat) (p : LimitedReader) : option error * LimitedReader :=
  match fuel with
  | O => (None, p)
  | S fuel' =>
      let '(_, err, p') := Limited_Read discard_buffer p in
      match err with
      | Some EOF => (None, p')
      | Some e => (Some e, p')
      | None => discard_loop fuel' p'
      end
  end.

Definition Copy_Discard (p : LimitedReader) : option error * LimitedReader :=
  discard_loop (S (length (R p))) p.

(** What one call of [ReadMessage] did: the error returned, the stream
    left behind, and the handler calls made, each with the type code and
    the bytes its payload reader held. *)
Record outcome := Outcome {
  result : option error;
  rest : stream;
  calls : list (MessageType * list byte)
}.

(** [func ReadMessage(r io.Reader, f MessageHandler) error] *)
Definition ReadMessage (r : stream) (f : MessageHandler) : outcome :=
  match binary_Read r with
  | (inr err, r') => Outcome (Some err) r' []
  | (inl h, r') =>
      if decide (hdrMagic h ≠ Magic) then
        Outcome (Some (ErrNew "invalid magic string")) r' []
      else
        let p := Limited r' (hdrLength h) in
        let '(ferr, p1) := run_handler (f (hdrType h)) p in
        let '(err, p2) := Copy_Discard p1 in
        Outcome (match ferr with Some e => Some e | None => err end)
                (R p2) [(hdrType h, contents p)]
  end.

(** *** Writers

    [io.Writer]: a write returns the writer after it, the count and the
    error. *)
Class Writer (W : Type) := Write : W → list byte → W * nat * option error.

(** A [bytes.Buffer]: appends, never fails. *)
#[global] Instance buffer_Writer : Writer (list byte) :=
  λ buf p, ((buf ++ p)%list, length p, None).

Section Writing.
Context {W : Type} `{Writer W}.

(** [binary.Write(w, ByteOrder, h)]: one [Write] of the encoding, whose
    count is dropped. *)
Definition binary_Write (w : W) (h : MessageHeader) : W * option error :=
  let '(w', _, err) := Write w (encode_header h) in (w', err).

(** [func WriteEmptyMessage(w io.Writer, t MessageType) error] *)
Definition WriteEmptyMessage (w : W) (t : MessageType) : W * option error :=
  binary_Write w (Header Magic 0 t).

(** [func WriteJSONMessage(w io.Writer, t MessageType, p interface{}) error];
    [marshal] is [json.Marshal] on the values of type [V]. *)
Definition WriteJSONMessage {V : Type} (marshal : V → list byte + error)
    (w : W) (t : MessageType) (p : V) : W * option error :=
  match marshal p with
  | inr err => (w, Some err)
  | inl b =>
      let '(w1, err) :=
        binary_Write w (Header Magic (uint32 (Z.of_nat (length b))) t) in
      match err with
      | Some e => (w1, Some e)
      | None =>
          let '(w2, n, err) := Write w1 b in
          match err with
          | Some e => (w2, Some e)
          | None => if decide (n < length b)%nat then (w2, Some ErrShortWrite)
                    else (w2, None)
          end
      end
  end.

End Writing.

(** [json.Marshal] on a [json.RawMessage] holding a compact document
    returns the document. *)
Definition marshal_raw (doc : list byte) : list byte + error := inl doc.

(** The round trip of one value through [WriteJSONMessage] into an empty
    buffer and [ReadMessage] on what was written: the handler is called
    once, with the type code and a payload reader holding the encoding. *)
Definition roundtrip_holds {V : Type} (marshal : V → list byte + error)
    (t : MessageType) (v : V) : Prop :=
  ∀ b f, marshal v = inl b →
    ∃ wire : list byte,
      WriteJSONMessage marshal [] t v = (wire, None)
      ∧ calls (ReadMessage wire f) = [(t, b)].

(** A JSON string document of 2^32 bytes: a quote, letters, a quote. *)
Definition big_document : list byte :=
  x22 :: (repeat x61 (Z.to_nat (2 ^ 32 - 2)) ++ [x22])%list.

(** A frame of type [SUBSCRIBE] with the payload [{}] and a line feed,
    followed by one byte of the next message; a frame with a wrong magic;
    and a handler that reads one byte and fails. *)
Definition sample_frame : stream :=
  (encode_header (Header Magic 3 SUBSCRIBE) ++ [x7b; x7d; x0a] ++ [x69])%list.

Definition sample_bad_frame : stream :=
  (encode_header (Header [x69; x33; x2d; x69; x70; x78] 3 SUBSCRIBE)
   ++ [x7b; x7d; x0a] ++ [x69])%list.

Definition sample_handler : MessageHandler :=
  λ _, HRead 1 (λ _ _, HReturn (Some (ErrNew "stop"))).

(** A stream that ends before the message it starts is complete: inside
    the 14 header bytes, or inside the payload a header with the right
    magic declares. *)
Definition cut_short (s : stream) : Prop :=
  (length s < header_size)%nat
  ∨ (hdrMagic (decode_header (take header_size s)) = Magic
     ∧ (length s < header_size
                   + Z.to_nat (hdrLength (decode_header (take header_size s))))%nat).

(** [ReadMessage] returns an IO error. *)
Definition yields_IO_error (s : stream) (f : MessageHandler) : Prop :=
  ∃ e, result (ReadMessage s f) = Some e ∧ kind_of e = IOError.

(** *** Connecting

    [getenv] is [os.Getenv]; [dial path] is [net.Dial("unix", path)],
    which gives a connection or an error of package [net] (its message
    here), never a value of this program. *)
Section Connecting.
Context {Conn : Type}.
Variable getenv : string → string.
Variable dial : string → Conn + string.

(** [func Connect(path string) (net.Conn, error)] *)
Definition Connect (path : string) : Conn + error :=
  let path := if decide (String.length path = 0%nat) then getenv "SWAYSOCK" else path in
  if decide (String.length path = 0%nat) then inr ErrNoIPC
  else match dial path with
       | inl c => inl c
       | inr msg => inr (ErrExternal msg)
       end.

End Connecting.

End Ipc.

(** ** [main]: connecting and the status loop *)

Module Main.

Section Program.
Context {Conn Time : Type}.
Variable getenv : string → string.
Variable dial : string → Conn + string.
(** [t.Format(layout)] *)
Variable Format : Time → string → string.
(** [io.WriteString(os.Stdout, s)] *)
Variable WriteString : string → nat * option error.

(** How [main] leaves its connecting phase: [os.Exit(code)] after a line
    on standard error, or the status loop started with the final time
    format, and [watchLayouts] running on the connection if there is
    one. *)
Inductive startup :=
| Exit (code : Z) (stderr : string)
| Started (watching : option Conn) (format : string).

(** Lines 247-258 of [main], for the format the options selected. *)
Definition connect_phase (format : string) : startup :=
  match Ipc.Connect getenv dial "" with
  | inr err =>
      if decide (err ≠ ErrNoIPC) then
        Exit 1 ("failed to connect to Sway: " ++ Error err ++ LF)
      else Started None (format ++ LF)
  | inl c => Started (Some c) (" " ++ format ++ LF)
  end.

(** What the [select] of the status loop receives: a layout from [m.ch]
    (with [time.Now()] taken on receipt) or a time from the ticker. *)
Inductive event :=
| LayoutEvent (layout : string) (now : Time)
| Tick (t : Time).

(** The variables [layout, prevStatus] of the loop. *)
Record loop_state := LoopState { layout : string; prevStatus : string }.

(** [var layout, prevStatus string] *)
Definition loop_init : loop_state := LoopState "" "".

(** One iteration of the loop: the strings passed to [io.WriteString],
    each in one call, and either the next state or the exit. *)
Inductive iteration :=
| Next (st : loop_state) (writes : list string)
| Fatal (code : Z) (stderr : string) (writes : list string).

(** [status := layout + t.Format(format)] for the event received. *)
Definition candidate (format : string) (st : loop_state) (ev : event) : string :=
  match ev with
  | LayoutEvent l now => l ++ Format now format
  | Tick t => layout st ++ Format t format
  end.

Definition iterate (format : string) (st : loop_state) (ev : event) : iteration :=
  let layout' := match ev with LayoutEvent l _ => l | Tick _ => layout st end in
  let status := candidate format st ev in
  if decide (status ≠ prevStatus st) then
    let '(n, err) := WriteString status in
    let err := match err with
               | None => if decide (n < String.length status)%nat
                         then Some ErrShortWrite else None
               | Some e => Some e
               end in
    match err with
    | Some e => Fatal 1 ("failed to output status line: " ++ Error e ++ LF) [status]
    | None => Next (LoopState layout' status) [status]
    end
  else Next (LoopState layout' (prevStatus st)) [].

(** The loop over the events received, until they end or an iteration
    exits: all writes in order, and the state reached if still running. *)
Fixpoint run_loop (format : string) (st : loop_state) (evs : list event)
  : list string * option loop_state :=
  match evs with
  | [] => ([], Some st)
  | ev :: evs' =>
      match iterate format st ev with
      | Fatal _ _ ws => (ws, None)
      | Next st' ws =>
          let '(ws', r) := run_loop format st' evs' in ((ws ++ ws')%list, r)
      end
  end.

Definition writes_of (it : iteration) : list string :=
  match it with
  | Next _ ws => ws
  | Fatal _ _ ws => ws
  end.

(** The states the loop can be in: those [run_loop] reaches from the
    initial one. *)
Definition reachable (format : string) (st : loop_state) : Prop :=
  ∃ evs ws, run_loop format loop_init evs = (ws, Some st).

(** Deduplication read literally: any two consecutive iterations with the
    same candidate make exactly one write between them. *)
Definition one_write_per_identical_pair (format : string) : Prop :=
  ∀ st e1 e2 st1 w1 st2 w2,
    reachable format st →
    iterate format st e1 = Next st1 w1 →
    iterate format st1 e2 = Next st2 w2 →
    candidate format st e1 = candidate format st1 e2 →
    length (w1 ++ w2)%list = 1.

(** The events a run can receive: with no connection [watchLayouts] is
    not started and nothing is ever sent on [m.ch]. *)
Definition is_tick (ev : event) : Prop :=
  match ev with Tick _ => True | LayoutEvent _ _ => False end.

Definition events_of_mode (watching : option Conn) (evs : list event) : Prop :=
  match watching with
  | Some _ => True
  | None => Forall is_tick evs
  end.

End Program.

(** [t.Format(layout)] for a layout without any reference-time element
    (such as [-f now]) is the layout itself. *)
Definition Format_literal {Time : Type} (t : Time) (layout : string) : string := layout.

(** A standard output that accepts every write in full. *)
Definition WriteString_ok (s : string) : nat * option error := (String.length s, None).

End Main.

(** ** The layout monitor: [processMsg] and [watchLayouts] *)

Module Watch.
Import Registry Ipc.
Import Stdlib.Init.Byte.

(** [type InputDevice struct] and [type InputEventPayload struct], with
    the fields the JSON decoder fills. *)
Record InputDevice := Device {
  Identifier : string;
  XkbActiveLayoutName : string
}.

Record InputEventPayload := EventPayload {
  Change : string;
  Input : InputDevice
}.

Section Monitor.
Context {W : Type} `{Writer W}.
(** [json.NewDecoder(payload).Decode(&p)] for the three types [p] has in
    [processMsg], as functions of the bytes the payload reader holds:
    the [Success] field, the device list, the event. *)
Variable decode_success : list byte → bool + error.
Variable decode_inputs : list byte → list InputDevice + error.
Variable decode_event : list byte → InputEventPayload + error.

(** [for _, i := range p { self.set(i.Identifier, i.XkbActiveLayoutName) }] *)
Definition set_all (self : monitor) (p : list InputDevice) : monitor :=
  foldl (λ m i, set m (Identifier i) (XkbActiveLayoutName i)) self p.

(** [func (self *monitor) processMsg(t MessageType, payload io.Reader) error],
    with the socket [self.s] as [s]: the monitor and the socket after the
    call, and the error returned. *)
Definition processMsg (self : monitor) (s : W) (t : MessageType)
    (payload : list byte) : monitor * W * option error :=
  if decide (t = SUBSCRIBE) then
    match decode_success payload with
    | inr err => (self, s, Some err)
    | inl success =>
        if negb success then
          (self, s, Some (ErrNew "failed to subscribe to Sway events"))
        else
          let '(s', err) := WriteEmptyMessage s GET_INPUTS in (self, s', err)
    end
  else if decide (t = GET_INPUTS) then
    match decode_inputs payload with
    | inr err => (self, s, Some err)
    | inl p => (set_all self p, s, None)
    end
  else if decide (t = InputEvent) then
    match decode_event payload with
    | inr err => (self, s, Some err)
    | inl p =>
        if decide (Change p = "removed") then
          (del self (Identifier (Input p)), s, None)
        else
          (set self (Identifier (Input p)) (XkbActiveLayoutName (Input p)),
           s, None)
    end
  else (self, s, None).

(** One round of the loop of [watchLayouts], for a message [ReadMessage]
    handed to [processMsg] (its type code and the bytes of its payload
    reader): [os.Exit(1)] after a line on standard error, or the monitor
    and socket after the round and the layout sent on [ch], if any. *)
Inductive round :=
| Exited (code : Z) (stderr : string)
| Looping (self : monitor) (s : W) (sent : option string).

Definition watch_round (self : monitor) (s : W)
    (msg : MessageType * list byte) : round :=
  match processMsg self s msg.1 msg.2 with
  | (_, _, Some err) => Exited 1 ("Sway IPC failure: " ++ Error err ++ LF)
  | (self', s', None) =>
      let '(self'', sent) := publish self' in Looping self'' s' sent
  end.

(** The rounds for the messages received, in order, until they end or a
    round exits: the layouts sent on [ch], and the monitor and socket if
    the loop is still running. *)
Fixpoint watch_rounds (self : monitor) (s : W)
    (msgs : list (MessageType * list byte))
  : list string * option (monitor * W) :=
  match msgs with
  | [] => ([], Some (self, s))
  | msg :: msgs' =>
      match watch_round self s msg with
      | Exited _ _ => ([], None)
      | Looping self' s' sent =>
          let '(out, r) := watch_rounds self' s' msgs' in
          ((option_list sent ++ out)%list, r)
      end
  end.

End Monitor.

(** The reading loop of [watchLayouts] on the stream alone,
    [for { err = ReadMessage(self.s, f); if err != nil { exit } }],
    run for at most [fuel] messages: the handler calls made, and the
    error that ended the loop, if it ended. *)
Fixpoint read_loop (fuel : nat) (r : stream) (f : MessageHandler)
  : list (MessageType * list byte) * option error :=
  match fuel with
  | O => ([], None)
  | S fuel' =>
      let o := ReadMessage r f in
      match result o with
      | Some err => (calls o, Some err)
      | None =>
          let '(cs, e) := read_loop fuel' (rest o) f in
          ((calls o ++ cs)%list, e)
      end
  end.

(** The bytes of one message on the wire: the header for the payload's
    length, then the payload. *)
Definition frame (msg : MessageType * list byte) : list byte :=
  (encode_header (Header Magic (Z.of_nat (length msg.2)) msg.1) ++ msg.2)%list.

Definition frames (msgs : list (MessageType * list byte)) : list byte :=
  concat (frame <$> msgs).

(** A message a 32-bit header can describe. *)
Definition frameable (msg : MessageType * list byte) : Prop :=
  (0 ≤ msg.1 < 2 ^ 32)%Z ∧ (Z.of_nat (length msg.2) < 2 ^ 32)%Z.

(** A handler that returns no error, whatever it reads. *)
Fixpoint succeeds (h : handler) : Prop :=
  match h with
  | HReturn err => err = None
  | HRead _ k => ∀ bs e, succeeds (k bs e)
  end.

(** The two [SUBSCRIBE] replies of Sway, with the success flag true and
    false, and the decoding of the [Success] field on them. *)
Definition reply_success : list byte :=
  [x7b; x22; x73; x75; x63; x63; x65; x73; x73; x22; x3a;
   x74; x72; x75; x65; x7d].

Definition reply_failure : list byte :=
  [x7b; x22; x73; x75; x63; x63; x65; x73; x73; x22; x3a;
   x66; x61; x6c; x73; x65; x7d].

Definition decode_reply (payload : list byte) : bool + error :=
  if decide (payload = reply_success) then inl true
  else if decide (payload = reply_failure) then inl false
  else inr (ErrExternal "invalid character").

End Watch.

(** ** Command line and ticker *)

Module Args.

Local Open Scope Z_scope.

(** [time.Duration] in nanoseconds. *)
Definition Second : Z := 1000000000.
Definition Minute : Z := 60 * Second.
Definition Hour : Z := 60 * Minute.

(** How option parsing ends: [-h] (usage on standard output, [main]
    returns), a message and the usage on standard error with
    [os.Exit(1)], or the interval and format selected. *)
Inductive parsed :=
| Help
| Failed (message : string)
| Options (interval : Z) (format : string).

Section Parsing.
(** [strings.ToLower] *)
Variable ToLower : string → string.

(** The [switch strings.ToLower(ti)] of [-t]. *)
Definition interval_of (ti : string) : option Z :=
  let l := ToLower ti in
  if decide (l = "s" ∨ l = "second") then Some Second
  else if decide (l = "m" ∨ l = "minute") then Some Minute
  else if decide (l = "h" ∨ l = "hour") then Some Hour
  else if decide (l = "d" ∨ l = "day") then Some (24 * Hour)
  else None.

(** The option loop of [main] over [os.Args[1:]]; [getArg] takes the
    next argument or fails when there is none. *)
Fixpoint parse (args : list string) (interval : Z) (format : string) : parsed :=
  match args with
  | [] => Options interval format
  | a :: rest =>
      if decide (a = "-h" ∨ a = "--help") then Help
      else if decide (a = "-t") then
        match rest with
        | [] => Failed ("missing value for the parameter " ++ a)
        | ti :: rest' =>
            match interval_of ti with
            | Some d => parse rest' d format
            | None => Failed ("invalid interval: " ++ ti)
            end
        end
      else if decide (a = "-f") then
        match rest with
        | [] => Failed ("missing value for the parameter " ++ a)
        | f :: rest' => parse rest' interval f
        end
      else Failed ("unknown parameter: " ++ a)
  end.

(** The intervals [-t] can select. *)
Definition selectable (i : Z) : Prop :=
  i = Second ∨ i = Minute ∨ i = Hour ∨ i = 24 * Hour.

(** How the loop goes on over further arguments [rest] once a first part
    of them is done. *)
Definition and_then (r : parsed) (rest : list string) : parsed :=
  match r with
  | Options interval format => parse rest interval format
  | _ => r
  end.

(** The failure of [getArg]. *)
Definition missing_value (r : parsed) : Prop :=
  ∃ a, r = Failed ("missing value for the parameter " ++ a).

(** [if len(format) == 0 { switch interval {...} }] *)
Definition default_format (interval : Z) (format : string) : string :=
  if decide (String.length format = 0%nat) then
    if decide (interval = Second) then "2006-01-02 15:04:05"
    else if decide (interval = Minute) then "2006-01-02 15:04"
    else if decide (interval = Hour) then "2006-01-02 15h"
    else if decide (interval = 24 * Hour) then "2006-01-02"
    else format
  else format.

(** [if interval > time.Hour { interval = time.Hour }] *)
Definition clamp (interval : Z) : Z :=
  if decide (interval > Hour) then Hour else interval.

(** Lines 203-246 of [main]: the options parsed from the defaults, then
    the default format and the clamped interval. *)
Definition configure (args : list string) : parsed :=
  match parse args Minute "" with
  | Options interval format =>
      Options (clamp interval) (default_format interval format)
  | r => r
  end.

End Parsing.

(** [strings.ToLower] on the upper- and lower-case letters of ASCII. *)
Definition ascii_lower (c : Ascii.ascii) : Ascii.ascii :=
  let n := Ascii.nat_of_ascii c in
  if decide (65 ≤ n ∧ n ≤ 90)%nat then Ascii.ascii_of_nat (n + 32) else c.

Fixpoint ToLower_ascii (s : string) : string :=
  match s with
  | EmptyString => EmptyString
  | String c s' => String (ascii_lower c) (ToLower_ascii s')
  end.

(** *** [timer]

    A [time.Time] as nanoseconds since the zero time, which is what
    [Truncate] rounds against. *)

(** [t.Truncate(d)] *)
Definition Truncate (t d : Z) : Z :=
  if decide (d ≤ 0) then t else t - t mod d.

(** [dt := t.Truncate(interval).Add(interval).Sub(t)] *)
Definition dt (t interval : Z) : Z := Truncate t interval + interval - t.

(** One round of [timer] at time [t]: the value sent on [ch], and the
    duration passed to [time.Sleep], if it sleeps. *)
Definition timer_round (t interval : Z) : Z * option Z :=
  (t, if decide (dt t interval > 0) then Some (dt t interval) else None).

End Args.

(** ** Sequences of lines and layouts *)

Module Lines.

(** Every element differs from the one before it, [prev] standing before
    the first. *)
Fixpoint changing (prev : string) (l : list string) : Prop :=
  match l with
  | [] => True
  | x :: l' => x ≠ prev ∧ changing x l'
  end.

(** The list without the elements equal to the one kept before them,
    [prev] standing before the first. *)
Fixpoint squeeze (prev : string) (l : list string) : list string :=
  match l with
  | [] => []
  | x :: l' => if decide (x = prev) then squeeze prev l' else x :: squeeze x l'
  end.

Section Statuses.
Context {Time : Type}.
Variable Format : Time → string → string.

(** The status strings the loop of [main] computes for the events it
    receives, starting with [layout]. *)
Fixpoint statuses (format layout : string) (evs : list (Main.event (Time := Time)))
  : list string :=
  match evs with
  | [] => []
  | Main.LayoutEvent l now :: evs' =>
      (l ++ Format now format) :: statuses format l evs'
  | Main.Tick t :: evs' =>
      (layout ++ Format t format) :: statuses format layout evs'
  end.

End Statuses.

End Lines.

(** * Properties *)

(** ** Go strings

    [len(s) == 0] and [len(s) > 0] against the empty string. *)

Lemma strlen_zero (s : string) : String.length s = 0 ↔ s = "".
Proof. destruct s; simpl; split; intros; congruence || lia. Qed.

Lemma strlen_pos (s : string) : 0 < String.length s ↔ s ≠ "".
Proof. destruct s; simpl; split; intros; congruence || lia. Qed.

(** ** Device registry *)

Module RegistryFacts.
Import Registry.

Lemma at_key_next_empty g id : next_all_empty g → nextDev (at_key g id) = "".
Proof.
  intros Hg. unfold at_key. destruct (g !! id) as [r|] eqn:E; simpl; eauto.
Qed.

Lemma next_all_empty_insert g k r :
  nextDev r = "" → next_all_empty g → next_all_empty (<[k := r]> g).
Proof.
  intros Hr Hg k' r'. rewrite lookup_insert.
  case_decide; [intros [= <-]; done | apply Hg].
Qed.

Lemma next_all_empty_delete g k : next_all_empty g → next_all_empty (delete k g).
Proof.
  intros Hg k' r'. rewrite lookup_delete.
  case_decide; [done | apply Hg].
Qed.

Lemma relink_next_skip l1 g : nextDev l1 = "" → relink_next l1 g = g.
Proof.
  intros E. unfold relink_next. rewrite E.
  case_decide; [simpl in *; lia | done].
Qed.

Lemma relink_prev_next_empty l1 g :
  nextDev l1 = "" → next_all_empty g → next_all_empty (relink_prev l1 g).
Proof.
  intros E Hg. unfold relink_prev. case_decide; [|done].
  by apply next_all_empty_insert.
Qed.

Lemma unlink_next_empty l1 g :
  nextDev l1 = "" → next_all_empty g → next_all_empty (unlink l1 g).
Proof.
  intros E Hg. unfold unlink. rewrite relink_next_skip by done.
  by apply relink_prev_next_empty.
Qed.

Lemma del_next_empty m id : next_empty_inv m → next_empty_inv (del m id).
Proof.
  intros Hm. unfold del. case_decide; [done|].
  destruct (kbds m) as [g|] eqn:E; [|done].
  intros g' [= <-]. specialize (Hm g E).
  apply unlink_next_empty; [by apply at_key_next_empty|].
  by apply next_all_empty_delete.
Qed.

Lemma set_next_empty m id l : next_empty_inv m → next_empty_inv (set m id l).
Proof.
  intros Hm. unfold set. case_decide; [by apply del_next_empty|].
  assert (Hg : next_all_empty (default ∅ (kbds m))).
  { destruct (kbds m) as [g|] eqn:E; simpl; [by apply Hm|].
    intros k r. by rewrite lookup_empty. }
  pose proof (at_key_next_empty _ id Hg) as Hn.
  repeat case_decide; intros g' [= <-]; try done.
  - apply next_all_empty_insert; [done|].
    by apply unlink_next_empty.
  - by apply next_all_empty_insert.
Qed.

Lemma foldl_next_empty ops m :
  next_empty_inv m → next_empty_inv (foldl apply_op m ops).
Proof.
  revert m. induction ops as [|o ops IH]; intros m Hm; [done|].
  simpl. apply IH. destruct o; [by apply set_next_empty | by apply del_next_empty].
Qed.

(** C10: after any sequence of [set] and [del] from the empty registry,
    every record of the map has an empty [nextDev]. *)
Theorem next_links_never_populated (ops : list op) (g : gmap string kbdDev)
    (k : string) (r : kbdDev) :
  kbds (run ops) = Some g → g !! k = Some r → nextDev r = "".
Proof.
  intros Hg Hk.
  assert (H : next_empty_inv (run ops)) by (apply foldl_next_empty; by intros ?).
  exact (H g Hg k r Hk).
Qed.

Lemma next_links_never_populated_witness :
  ∃ g r, kbds (run [OpSet "kbd0" "us"; OpSet "kbd1" "de"; OpSet "kbd0" "fr"]) = Some g
         ∧ g !! "kbd1" = Some r ∧ prevDev r = "kbd0" ∧ nextDev r = "".
Proof.
  eexists _, _. split; [reflexivity|]. split; [vm_compute; reflexivity|].
  split; [reflexivity|].
  eapply (next_links_never_populated
            [OpSet "kbd0" "us"; OpSet "kbd1" "de"; OpSet "kbd0" "fr"] _ "kbd1");
    [reflexivity | vm_compute; reflexivity].
Defined.

(** *** [set] with an unchanged layout *)

Lemma set_same_layout m id l :
  l ≠ "" → has_layout m id l → set m id l = m.
Proof.
  intros Hl (g & r & Hg & Hr & Hlay). unfold set.
  case_decide as Hlen; [by apply strlen_zero in Hlen|].
  rewrite Hg. simpl. unfold at_key. rewrite Hr. simpl.
  case_decide; [|done]. destruct m; simpl in *; by subst.
Qed.

Lemma set_has_layout m id l : l ≠ "" → has_layout (set m id l) id l.
Proof.
  intros Hl. unfold set.
  case_decide as Hlen; [by apply strlen_zero in Hlen|].
  case_decide as Hsame.
  - unfold at_key in Hsame.
    destruct (default ∅ (kbds m) !! id) as [r|] eqn:E; simpl in Hsame; [|congruence].
    by exists (default ∅ (kbds m)), r.
  - case_decide; (eexists _, _; split; [reflexivity|];
      split; [apply lookup_insert_eq | reflexivity]).
Qed.

Lemma publish_quiet m :
  prevLayout m = currentLayout m → publish m = (m, None).
Proof. intros E. unfold publish. by case_decide. Qed.

Lemma publish_settles m :
  prevLayout (publish m).1 = currentLayout (publish m).1
  ∧ kbds (publish m).1 = kbds m ∧ lastKbd (publish m).1 = lastKbd m.
Proof. unfold publish. by case_decide. Qed.

(** C7: [set(id, l)] with a non-empty [l] that the record of [id] already
    has changes nothing in the registry and, once the monitor has
    published, sends nothing; a second identical call after any first one
    is such a call. *)
Theorem set_unchanged_layout_is_noop (m : monitor) (id l : string) :
  l ≠ "" →
  (has_layout m id l →
     set m id l = m
     ∧ (prevLayout m = currentLayout m → publish (set m id l) = (m, None)))
  ∧ set (set m id l) id l = set m id l
  ∧ (let m1 := (publish (set m id l)).1 in
     set m1 id l = m1 ∧ publish (set m1 id l) = (m1, None)).
Proof.
  intros Hl. split; [|split].
  - intros Hhas. rewrite set_same_layout by done.
    split; [done | apply publish_quiet].
  - apply set_same_layout; [done | by apply set_has_layout].
  - simpl. destruct (publish_settles (set m id l)) as (Hq & Hk & _).
    assert (Hhas : has_layout (publish (set m id l)).1 id l).
    { destruct (set_has_layout m id l Hl) as (g & r & ? & ? & ?).
      exists g, r. by rewrite Hk. }
    rewrite set_same_layout by done. split; [done | by apply publish_quiet].
Qed.

Lemma set_unchanged_layout_is_noop_witness :
  let m := run [OpSet "kbd0" "us"; OpSet "kbd1" "de"] in
  "us" ≠ "" ∧ has_layout m "kbd0" "us" ∧ set m "kbd0" "us" = m
  ∧ lastKbd (set m "kbd0" "us") = "kbd1".
Proof.
  assert (Hl : "us" ≠ "") by discriminate.
  assert (Hhas : has_layout (run [OpSet "kbd0" "us"; OpSet "kbd1" "de"]) "kbd0" "us").
  { eexists _, _. split; [reflexivity|]. split; [vm_compute; reflexivity | reflexivity]. }
  simpl. split; [exact Hl|]. split; [exact Hhas|].
  destruct (set_unchanged_layout_is_noop
              (run [OpSet "kbd0" "us"; OpSet "kbd1" "de"]) "kbd0" "us" Hl) as [H _].
  destruct (H Hhas) as [-> _]. split; reflexivity.
Defined.

(** *** What [set] and [del] do keep of the specification

    The layout stored for each device always is the one the
    specification has; and as long as nothing is deleted, [lastKbd] is
    the tail of the specification's list.  The statements on deletions
    further down show where the two part. *)

Lemma find_remove k id s :
  RegistrySpec.find k (RegistrySpec.remove id s)
  = if decide (k = id) then None else RegistrySpec.find k s.
Proof.
  unfold RegistrySpec.remove. induction s as [|[k' l'] s IH].
  - by case_decide.
  - simpl. destruct (decide (k' = id)) as [->|Hne].
    + rewrite filter_cons_False by (simpl; intros Hn; by apply Hn). rewrite IH.
      destruct (decide (k = id)) as [->|]; [done|].
      by rewrite decide_False by done.
    + rewrite filter_cons_True by done. simpl. rewrite IH.
      destruct (decide (k' = k)) as [->|]; [by rewrite decide_False|done].
Qed.

Lemma find_snoc k id l s :
  RegistrySpec.find k (s ++ [(id, l)])%list
  = match RegistrySpec.find k s with
    | Some x => Some x
    | None => if decide (id = k) then Some l else None
    end.
Proof.
  induction s as [|[k' l'] s IH]; simpl; [done|].
  destruct (decide (k' = k)); [done | apply IH].
Qed.

Lemma at_key_insert g k r k' :
  at_key (<[k := r]> g) k' = if decide (k = k') then r else at_key g k'.
Proof. unfold at_key. rewrite lookup_insert. by case_decide. Qed.

Lemma at_key_delete g k k' :
  at_key (delete k g) k' = if decide (k = k') then zeroDev else at_key g k'.
Proof. unfold at_key. rewrite lookup_delete. by case_decide. Qed.

Lemma layout_relink_prev l1 g k :
  layout (at_key (relink_prev l1 g) k) = layout (at_key g k).
Proof.
  unfold relink_prev. case_decide; [|done].
  rewrite at_key_insert. destruct (decide (prevDev l1 = k)) as [<-|]; done.
Qed.

Lemma layout_relink_next l1 g k :
  layout (at_key (relink_next l1 g) k) = layout (at_key g k).
Proof.
  unfold relink_next. case_decide; [|done].
  rewrite at_key_insert. destruct (decide (nextDev l1 = k)) as [<-|]; done.
Qed.

Lemma layout_unlink l1 g k : layout (at_key (unlink l1 g) k) = layout (at_key g k).
Proof. unfold unlink. by rewrite layout_relink_next, layout_relink_prev. Qed.

Lemma del_layouts_agree m s id :
  id ≠ "" → RegistrySpec.layouts_agree m s →
  RegistrySpec.layouts_agree (del m id) (RegistrySpec.delete s id).
Proof.
  intros Hid Hag k. unfold RegistrySpec.delete. rewrite find_remove.
  specialize (Hag k). unfold del.
  rewrite decide_False by (by rewrite strlen_zero).
  unfold kbds_at in *. destruct (kbds m) as [g|] eqn:E; simpl.
  - rewrite layout_unlink, at_key_delete.
    destruct (decide (id = k)) as [->|]; [by rewrite decide_True|].
    by rewrite decide_False by done.
  - rewrite E. case_decide; [done|]. done.
Qed.

Lemma set_layouts_agree m s id l :
  (l = "" → id ≠ "") → RegistrySpec.layouts_agree m s →
  RegistrySpec.layouts_agree (set m id l) (RegistrySpec.set s id l).
Proof.
  intros Hid Hag. unfold set, RegistrySpec.set.
  destruct (decide (l = "")) as [->|Hl].
  { rewrite decide_True by done. apply del_layouts_agree; auto. }
  rewrite decide_False by (by rewrite strlen_zero).
  assert (Hg : ∀ k, layout (at_key (default ∅ (kbds m)) k)
                    = default "" (RegistrySpec.find k s)).
  { intros k. specialize (Hag k). unfold kbds_at in Hag.
    destruct (kbds m); simpl; [done|]. by rewrite <- Hag. }
  destruct (decide (layout (at_key (default ∅ (kbds m)) id) = l)) as [Hsame|Hdiff].
  - rewrite (decide_True (P := RegistrySpec.find id s = Some l));
      [intros k; apply Hg|].
    rewrite Hg in Hsame. destruct (RegistrySpec.find id s); simpl in *; congruence.
  - rewrite (decide_False (P := RegistrySpec.find id s = Some l)); cycle 1.
    { intros Hf. apply Hdiff. by rewrite Hg, Hf. }
    intros k. rewrite find_snoc, find_remove.
    case_decide; unfold kbds_at; simpl; rewrite at_key_insert;
      (destruct (decide (id = k)) as [->|Hne];
       [ by rewrite decide_True
       | rewrite decide_False by done;
         rewrite ?layout_unlink, Hg; by destruct (RegistrySpec.find k s) ]).
Qed.

Lemma foldl_layouts_agree ops m s :
  Forall RegistrySpec.names_device ops → RegistrySpec.layouts_agree m s →
  RegistrySpec.layouts_agree (foldl apply_op m ops)
                             (foldl RegistrySpec.apply_op s ops).
Proof.
  revert m s. induction ops as [|o ops IH]; intros m s Hops Hag; [done|].
  inversion Hops as [|? ? Ho Hrest]; subst. simpl. apply IH; [done|].
  destruct o; simpl in *; [by apply set_layouts_agree | by apply del_layouts_agree].
Qed.

(** On named devices, each device's stored layout follows the
    specification through every sequence of operations. *)
Lemma stored_layouts_follow_spec ops id :
  Forall RegistrySpec.names_device ops →
  layout (kbds_at (run ops) id)
  = default "" (RegistrySpec.find id (RegistrySpec.run ops)).
Proof.
  intros Hops. by apply (foldl_layouts_agree ops newMonitor []).
Qed.

Lemma mostRecentId_snoc s id l : RegistrySpec.mostRecentId (s ++ [(id, l)]) = id.
Proof. unfold RegistrySpec.mostRecentId. by rewrite last_snoc. Qed.

Lemma set_tail_agrees m s id l :
  l ≠ "" → RegistrySpec.layouts_agree m s →
  lastKbd m = RegistrySpec.mostRecentId s →
  lastKbd (set m id l) = RegistrySpec.mostRecentId (RegistrySpec.set s id l).
Proof.
  intros Hl Hag Hlast. unfold set, RegistrySpec.set.
  rewrite decide_False by (by rewrite strlen_zero).
  rewrite (decide_False (P := l = "")) by done.
  assert (Hg : layout (at_key (default ∅ (kbds m)) id)
               = default "" (RegistrySpec.find id s)).
  { specialize (Hag id). unfold kbds_at in Hag.
    destruct (kbds m); simpl; [done|]. by rewrite <- Hag. }
  destruct (decide (layout (at_key (default ∅ (kbds m)) id) = l)) as [Hsame|Hdiff].
  - rewrite (decide_True (P := RegistrySpec.find id s = Some l)); [done|].
    rewrite Hg in Hsame. destruct (RegistrySpec.find id s); simpl in *; congruence.
  - rewrite (decide_False (P := RegistrySpec.find id s = Some l)); cycle 1.
    { intros Hf. apply Hdiff. by rewrite Hg, Hf. }
    rewrite mostRecentId_snoc. case_decide as Hne; [done|].
    simpl. by destruct (decide (lastKbd m = id)).
Qed.

Lemma foldl_sets_agree ops m s :
  Forall RegistrySpec.sets_layout ops → RegistrySpec.layouts_agree m s →
  lastKbd m = RegistrySpec.mostRecentId s →
  RegistrySpec.layouts_agree (foldl apply_op m ops)
                             (foldl RegistrySpec.apply_op s ops)
  ∧ lastKbd (foldl apply_op m ops)
    = RegistrySpec.mostRecentId (foldl RegistrySpec.apply_op s ops).
Proof.
  revert m s. induction ops as [|o ops IH]; intros m s Hops Hag Hlast; [done|].
  inversion Hops as [|? ? Ho Hrest]; subst. simpl.
  destruct o as [id l|]; [|done]. simpl in Ho. apply IH; [done| |].
  - apply set_layouts_agree; [done | done].
  - by apply set_tail_agrees.
Qed.

(** As long as every operation is a [set] with a layout, [lastKbd] is
    the specification's tail. *)
Lemma sets_keep_tail ops :
  Forall RegistrySpec.sets_layout ops →
  lastKbd (run ops) = RegistrySpec.mostRecentId (RegistrySpec.run ops).
Proof.
  intros Hops. by apply (foldl_sets_agree ops newMonitor []).
Qed.

Lemma find_None k (s : list (string * string)) :
  k ∉ s.*1 → RegistrySpec.find k s = None.
Proof.
  induction s as [|[k' l'] s IH]; simpl; [done|].
  intros Hk. apply not_elem_of_cons in Hk as [Hne Hk].
  rewrite decide_False by done. by apply IH.
Qed.

Lemma remove_keys_sublist id (s : list (string * string)) :
  (RegistrySpec.remove id s).*1 `sublist_of` s.*1.
Proof.
  unfold RegistrySpec.remove. induction s as [|[k' l'] s IH]; [done|].
  destruct (decide (k' = id)) as [->|Hne].
  - rewrite filter_cons_False by (simpl; intros Hn; by apply Hn).
    simpl. by apply sublist_cons.
  - rewrite filter_cons_True by done. simpl. by apply sublist_skip.
Qed.

Lemma remove_not_elem id (s : list (string * string)) :
  id ∉ (RegistrySpec.remove id s).*1.
Proof.
  unfold RegistrySpec.remove. intros Hin.
  apply list_elem_of_fmap in Hin as ([k l] & -> & Hin).
  apply list_elem_of_filter in Hin as [Hne _]. by apply Hne.
Qed.

Lemma spec_keys_NoDup ops (s : list (string * string)) :
  NoDup s.*1 → NoDup (foldl RegistrySpec.apply_op s ops).*1.
Proof.
  revert s. induction ops as [|o ops IH]; intros s Hs; [done|].
  simpl. apply IH.
  assert (Hrem : ∀ id, NoDup (RegistrySpec.remove id s).*1).
  { intros id. eapply sublist_NoDup; [exact Hs | apply remove_keys_sublist]. }
  destruct o as [id l|id]; simpl; [|apply Hrem].
  unfold RegistrySpec.set, RegistrySpec.delete. repeat case_decide; try done.
  rewrite fmap_app. apply NoDup_app. split; [apply Hrem|]. split.
  - intros k Hk Hin. simpl in Hin. apply list_elem_of_singleton in Hin as ->.
    by apply remove_not_elem in Hk.
  - simpl. apply NoDup_singleton.
Qed.

Lemma spec_current_at_tail (s : list (string * string)) :
  NoDup s.*1 →
  RegistrySpec.currentLayout s
  = default "" (RegistrySpec.find (RegistrySpec.mostRecentId s) s).
Proof.
  unfold RegistrySpec.currentLayout, RegistrySpec.mostRecentId.
  destruct s as [|[k l] s _] using rev_ind; [done|].
  intros Hnd. rewrite last_snoc, find_snoc.
  rewrite fmap_app in Hnd. apply NoDup_app in Hnd as (_ & Hdisj & _).
  rewrite find_None; [by rewrite decide_True|].
  intros Hin. apply (Hdisj k Hin). simpl. by apply list_elem_of_singleton.
Qed.

(** As long as every operation is a [set] with a layout, the monitor
    reports what the specification reports. *)
Lemma sets_report_spec_layout ops :
  Forall RegistrySpec.sets_layout ops →
  currentLayout (run ops) = RegistrySpec.currentLayout (RegistrySpec.run ops).
Proof.
  intros Hops.
  destruct (foldl_sets_agree ops newMonitor []) as [Hag Hlast]; try done.
  unfold currentLayout. fold (run ops) in Hag, Hlast.
  fold (RegistrySpec.run ops) in Hag, Hlast.
  rewrite Hag, Hlast. symmetry. apply spec_current_at_tail.
  apply spec_keys_NoDup. constructor.
Qed.

(** *** The recency list after deletions *)

(** C1: with three devices set in turn and the two later ones deleted, the
    first device is still registered with its layout and is the one the
    specification reports, yet [lastKbd] names the deleted middle device
    and [currentLayout] is empty. *)
Theorem current_layout_lost_after_deletes :
  let ops := [OpSet "kbd0" "us"; OpSet "kbd1" "de"; OpSet "kbd2" "fr";
              OpDel "kbd1"; OpDel "kbd2"] in
  RegistrySpec.run ops = [("kbd0", "us")]
  ∧ RegistrySpec.currentLayout (RegistrySpec.run ops) = "us"
  ∧ has_layout (run ops) "kbd0" "us"
  ∧ lastKbd (run ops) = "kbd1"
  ∧ currentLayout (run ops) = "".
Proof.
  cbv zeta. repeat split; try (vm_compute; reflexivity).
  eexists _, _. split; [reflexivity|]. split; vm_compute; reflexivity.
Qed.

(** C2: after four [set] calls the record of kbd1 points back at kbd2
    while kbd2 has no forward link, and kbd1 and kbd2 point back at each
    other: a cycle of length two among three devices. *)
Theorem links_asymmetric_and_cyclic :
  let ops := [OpSet "kbd0" "us"; OpSet "kbd1" "de"; OpSet "kbd2" "fr";
              OpSet "kbd1" "ru"] in
  ∃ g, kbds (run ops) = Some g
       ∧ g !! "kbd1" = Some (KbdDev "ru" "kbd2" "")
       ∧ g !! "kbd2" = Some (KbdDev "fr" "kbd1" "")
       ∧ ¬ links_symmetric g
       ∧ size g = 3
       ∧ prev_cycle g 2 "kbd1"
       ∧ ¬ no_short_cycle g.
Proof.
  cbv zeta. eexists. split; [reflexivity|].
  match goal with |- ?g !! _ = _ ∧ _ => set (g0 := g) end.
  assert (E1 : g0 !! "kbd1" = Some (KbdDev "ru" "kbd2" "")) by (vm_compute; reflexivity).
  assert (E2 : g0 !! "kbd2" = Some (KbdDev "fr" "kbd1" "")) by (vm_compute; reflexivity).
  assert (Es : size g0 = 3) by (vm_compute; reflexivity).
  assert (Ec : prev_cycle g0 2 "kbd1").
  { split; [lia|]. split; [by rewrite E1|]. vm_compute; reflexivity. }
  clearbody g0.
  split; [exact E1|]. split; [exact E2|]. split; [|split; [exact Es|split; [exact Ec|]]].
  - intros Hsym. destruct (Hsym "kbd2" "kbd1" _ _ E2 E1) as [_ Hback].
    specialize (Hback eq_refl). discriminate.
  - intros Hno. apply (Hno "kbd1" 2); [lia | exact Ec].
Qed.

(** C3: deleting the older of two devices and then the newer one leaves
    no live device, but [lastKbd] is then the first, deleted device, and
    the second [del] has put that identifier back into the map with a
    zero record; and with a third device kept, deleting such a
    re-inserted tail empties [lastKbd] while that device is still
    registered. *)
Theorem tail_names_deleted_device :
  let before := [OpSet "kbd0" "us"; OpSet "kbd1" "de"; OpDel "kbd0"] in
  let ops := (before ++ [OpDel "kbd1"])%list in
  let ops' := [OpSet "kbd0" "us"; OpSet "kbd1" "de"; OpSet "kbd2" "fr";
               OpDel "kbd1"; OpDel "kbd2"; OpDel "kbd1"] in
  RegistrySpec.live (RegistrySpec.run ops) = []
  ∧ lastKbd (run ops) = "kbd0"
  ∧ (∃ g, kbds (run before) = Some g ∧ g !! "kbd0" = None)
  ∧ (∃ g, kbds (run ops) = Some g ∧ g !! "kbd0" = Some zeroDev)
  ∧ ¬ (lastKbd (run ops) = "" ↔ RegistrySpec.live (RegistrySpec.run ops) = [])
  ∧ lastKbd (run ops') = ""
  ∧ RegistrySpec.live (RegistrySpec.run ops') = ["kbd0"]
  ∧ has_layout (run ops') "kbd0" "us".
Proof.
  cbv zeta. repeat split; try (vm_compute; reflexivity).
  - eexists. split; [reflexivity|]. vm_compute; reflexivity.
  - eexists. split; [reflexivity|]. vm_compute; reflexivity.
  - intros [_ H]. specialize (H eq_refl). vm_compute in H. discriminate.
  - eexists _, _. split; [reflexivity|]. split; vm_compute; reflexivity.
Qed.

End RegistryFacts.

(** ** Sway IPC codec *)

Module IpcFacts.
Import Ipc.
Import Stdlib.Init.Byte.
Local Open Scope Z_scope.
Local Open Scope list_scope.

(** *** Little-endian words *)

Lemma Z_of_byte_range b : 0 ≤ Z_of_byte b < 256.
Proof.
  unfold Z_of_byte. pose proof (Byte.to_N_bounded b). lia.
Qed.

Lemma land_255_range v : 0 ≤ Z.land v 255 < 256.
Proof.
  change 255 with (Z.ones 8). rewrite Z.land_ones by lia.
  apply Z.mod_pos_bound. lia.
Qed.

Lemma Z_of_byte_of_Z v : Z_of_byte (byte_of_Z v) = Z.land v 255.
Proof.
  unfold Z_of_byte, byte_of_Z. pose proof (land_255_range v) as Hr.
  destruct (Byte.of_N (Z.to_N (Z.land v 255))) as [b|] eqn:E; simpl.
  - apply Byte.to_of_N in E. lia.
  - apply Byte.of_N_None_iff in E. lia.
Qed.

Lemma testbit_255 m : Z.testbit 255 m = bool_decide (0 ≤ m < 8).
Proof.
  change 255 with (Z.ones 8).
  destruct (decide (0 ≤ m)) as [Hm|Hm].
  - rewrite Z.testbit_ones by lia.
    case_bool_decide; [apply andb_true_iff; split; lia | ].
    apply andb_false_iff. right. lia.
  - rewrite Z.testbit_neg_r by lia. by rewrite bool_decide_eq_false_2 by lia.
Qed.

Lemma testbit_byte_shift v k n :
  0 ≤ k → 0 ≤ n →
  Z.testbit (Z.shiftl (Z_of_byte (byte_of_Z (Z.shiftr v k))) k) n
  = Z.testbit v n && bool_decide (k ≤ n < k + 8).
Proof.
  intros Hk Hn. rewrite Z_of_byte_of_Z.
  rewrite Z.shiftl_spec by lia. rewrite Z.land_spec, testbit_255.
  destruct (decide (k ≤ n)) as [Hkn|Hkn].
  - rewrite Z.shiftr_spec by lia. replace (n - k + k) with n by lia.
    f_equal. apply bool_decide_ext. lia.
  - rewrite (bool_decide_eq_false_2 (0 ≤ n - k < 8)) by lia.
    rewrite (bool_decide_eq_false_2 (k ≤ n < k + 8)) by lia.
    by rewrite !andb_false_r.
Qed.

Lemma Uint32_PutUint32 v : 0 ≤ v < 2 ^ 32 → Uint32 (PutUint32 v) = v.
Proof.
  intros Hv. unfold Uint32, PutUint32. apply Z.bits_inj'. intros n Hn.
  rewrite !Z.lor_spec.
  rewrite <- (Z.shiftl_0_r (Z_of_byte (byte_of_Z v))).
  rewrite <- (Z.shiftr_0_r v) at 1.
  rewrite !testbit_byte_shift by lia.
  destruct (decide (n < 32)) as [Hlt|Hge].
  - destruct (Z.testbit v n); simpl; [|done].
    destruct (decide (n < 8)); [by rewrite (bool_decide_eq_true_2 (0 ≤ n < 0 + 8)) by lia|].
    destruct (decide (n < 16));
      [rewrite (bool_decide_eq_true_2 (8 ≤ n < 8 + 8)) by lia; by rewrite ?orb_true_r|].
    destruct (decide (n < 24));
      [rewrite (bool_decide_eq_true_2 (16 ≤ n < 16 + 8)) by lia; by rewrite ?orb_true_r|].
    rewrite (bool_decide_eq_true_2 (24 ≤ n < 24 + 8)) by lia. by rewrite ?orb_true_r.
  - rewrite <- (Z.mod_small v (2 ^ 32)) by lia.
    rewrite Z.mod_pow2_bits_high by lia. done.
Qed.

Lemma Uint32_nonneg bs : 0 ≤ Uint32 bs.
Proof.
  unfold Uint32.
  destruct bs as [|b0 [|b1 [|b2 [|b3 [|? ?]]]]]; try lia.
  pose proof (Z_of_byte_range b0). pose proof (Z_of_byte_range b1).
  pose proof (Z_of_byte_range b2). pose proof (Z_of_byte_range b3).
  repeat (apply Z.lor_nonneg; split); try apply Z.shiftl_nonneg; lia.
Qed.

(** *** Headers *)

Lemma length_PutUint32 v : length (PutUint32 v) = 4%nat.
Proof. reflexivity. Qed.

Lemma length_encode_header h :
  length (hdrMagic h) = 6%nat → length (encode_header h) = header_size.
Proof.
  intros Hm. unfold encode_header, header_size.
  rewrite !length_app, !length_PutUint32, Hm. reflexivity.
Qed.

Lemma decode_encode_header h : header_wf h → decode_header (encode_header h) = h.
Proof.
  intros (Hm & Hl & Ht). unfold decode_header, encode_header.
  destruct h as [m l t]; simpl in *.
  destruct m as [|m0 [|m1 [|m2 [|m3 [|m4 [|m5 [|? ?]]]]]]]; try discriminate.
  change (Header [m0; m1; m2; m3; m4; m5]
            (Uint32 (PutUint32 l)) (Uint32 (PutUint32 t))
          = Header [m0; m1; m2; m3; m4; m5] l t).
  by rewrite !Uint32_PutUint32 by lia.
Qed.

Lemma binary_Read_encoded h s :
  header_wf h → binary_Read (encode_header h ++ s) = (inl h, s).
Proof.
  intros Hwf. pose proof Hwf as (Hm & _).
  pose proof (length_encode_header h Hm) as Hlen.
  unfold binary_Read, ReadFull. rewrite <- Hlen.
  rewrite decide_True by (rewrite length_app; lia).
  rewrite take_app_length, drop_app_length.
  by rewrite decode_encode_header.
Qed.

(** *** Limited readers *)

Lemma advance_0 p : advance 0 p = p.
Proof. destruct p as [r n]. unfold advance. simpl. f_equal. lia. Qed.

Lemma advance_advance j k p : advance k (advance j p) = advance (j + k) p.
Proof.
  unfold advance. simpl. rewrite drop_drop. f_equal. lia.
Qed.

Lemma advance_past k p :
  (length (R p) ≤ k)%nat →
  advance k p = Limited [] (N p - Z.of_nat k).
Proof. intros Hk. unfold advance. by rewrite drop_ge. Qed.

(** One [Read] moves a limited reader forward by the bytes it returns,
    within both the limit and the stream. *)
Lemma Limited_Read_advance n p :
  0 ≤ N p →
  ∃ k : nat, Z.of_nat k ≤ N p ∧ (k ≤ length (R p))%nat
             ∧ (Limited_Read n p).2 = advance k p
             ∧ (Limited_Read n p).1.1 = take k (R p).
Proof.
  intros HN. unfold Limited_Read.
  case_decide as H0.
  { exists 0%nat. simpl. rewrite advance_0, take_0. repeat split; lia. }
  set (n' := if decide (Z.of_nat n > N p) then Z.to_nat (N p) else n).
  assert (Hn' : Z.of_nat n' ≤ N p) by (subst n'; case_decide; lia).
  destruct (R p) as [|b r] eqn:ER.
  { exists 0%nat. simpl. unfold advance. rewrite ER. simpl.
    repeat split; lia || (f_equal; lia). }
  unfold stream_Read. cbn [fst snd].
  exists (length (take n' (b :: r))). rewrite length_take.
  repeat split; try lia.
  - unfold advance. rewrite ER. f_equal.
    destruct (decide (n' ≤ length (b :: r))%nat).
    + by rewrite Nat.min_l by done.
    + rewrite Nat.min_r by lia. by rewrite !drop_ge by lia.
  - destruct (decide (n' ≤ length (b :: r))%nat).
    + by rewrite Nat.min_l by done.
    + rewrite Nat.min_r by lia. by rewrite !take_ge by lia.
Qed.

(** However a handler reads, it leaves its payload reader somewhere
    within the declared payload. *)
Lemma run_handler_advance h p :
  0 ≤ N p →
  ∃ k : nat, Z.of_nat k ≤ N p ∧ (k ≤ length (R p))%nat
             ∧ (run_handler h p).2 = advance k p.
Proof.
  revert p. induction h as [err|n k IH]; intros p HN.
  - exists 0%nat. simpl. rewrite advance_0. repeat split; lia.
  - simpl. destruct (Limited_Read_advance n p HN) as (j & Hj1 & Hj2 & Hj3 & _).
    destruct (Limited_Read n p) as [[bs e] p']. simpl in Hj3. subst p'.
    destruct (IH bs e (advance j p)) as (i & Hi1 & Hi2 & Hi3).
    { simpl. lia. }
    exists (j + i)%nat. simpl in Hi1, Hi2. rewrite length_drop in Hi2.
    rewrite Hi3, advance_advance. repeat split; lia.
Qed.

(** With fuel beyond the length of the stream, the discarding loop ends
    by itself, without error, at the end of the payload or of the
    stream. *)
Lemma discard_loop_advance fuel p :
  0 ≤ N p → (length (R p) < fuel)%nat →
  discard_loop fuel p
  = (None, advance (Nat.min (Z.to_nat (N p)) (length (R p))) p).
Proof.
  revert p. induction fuel as [|fuel IH]; intros p HN Hfuel; [lia|].
  cbn [discard_loop]. unfold Limited_Read.
  case_decide as H0.
  { replace (Z.to_nat (N p)) with 0%nat by lia. simpl. by rewrite advance_0. }
  set (n' := if decide (Z.of_nat discard_buffer > N p)
             then Z.to_nat (N p) else discard_buffer).
  assert (Hn' : (0 < n' ≤ Z.to_nat (N p))%nat).
  { subst n'. unfold discard_buffer. case_decide; lia. }
  destruct (R p) as [|b r] eqn:ER.
  { simpl. rewrite Nat.min_0_r. unfold advance. by rewrite ER. }
  unfold stream_Read. rewrite length_take.
  rewrite IH; cycle 1.
  { simpl. lia. }
  { simpl. rewrite length_drop. simpl in *. lia. }
  f_equal. cbn [R N]. unfold advance. rewrite ER. cbn [R N].
  rewrite drop_drop, length_drop.
  destruct (decide (n' ≤ length (b :: r))%nat).
  - f_equal; [f_equal|]; lia.
  - rewrite !drop_ge by lia. f_equal. lia.
Qed.

Lemma Copy_Discard_advance p :
  0 ≤ N p →
  Copy_Discard p = (None, advance (Nat.min (Z.to_nat (N p)) (length (R p))) p).
Proof. intros HN. apply discard_loop_advance; [done | lia]. Qed.

Lemma discard_fuel_enough fuel p :
  0 ≤ N p → (length (R p) < fuel)%nat → discard_loop fuel p = Copy_Discard p.
Proof.
  intros HN Hf. rewrite Copy_Discard_advance by done.
  by apply discard_loop_advance.
Qed.

(** *** [ReadMessage] *)

Lemma binary_Read_long s :
  (header_size ≤ length s)%nat →
  binary_Read s = (inl (decode_header (take header_size s)), drop header_size s).
Proof.
  intros Hs. unfold binary_Read, ReadFull. by rewrite decide_True by done.
Qed.

Lemma binary_Read_short s :
  (length s < header_size)%nat →
  binary_Read s = (inr (if decide (s = []) then EOF else ErrUnexpectedEOF), []).
Proof.
  intros Hs. unfold binary_Read, ReadFull. rewrite decide_False by lia.
  destruct s; [by rewrite decide_True | by rewrite decide_False].
Qed.

(** Once a header with the right magic is read and its payload is in the
    stream: the handler is called once on the payload, ends within it,
    its error is the result, and the stream is left after the payload. *)
Lemma ReadMessage_after_header s s' h f :
  binary_Read s = (inl h, s') → hdrMagic h = Magic →
  0 ≤ hdrLength h → (Z.to_nat (hdrLength h) ≤ length s')%nat →
  let p := Limited s' (hdrLength h) in
  ReadMessage s f
  = Outcome (run_handler (f (hdrType h)) p).1
            (drop (Z.to_nat (hdrLength h)) s')
            [(hdrType h, take (Z.to_nat (hdrLength h)) s')]
  ∧ ∃ k : nat, (k ≤ Z.to_nat (hdrLength h))%nat
               ∧ (run_handler (f (hdrType h)) p).2 = advance k p.
Proof.
  intros Hread Hmagic HL Hlen p. unfold ReadMessage. rewrite Hread.
  rewrite decide_False by (intros Hne; by apply Hne).
  fold p.
  destruct (run_handler_advance (f (hdrType h)) p HL) as (k & Hk1 & Hk2 & Hk3).
  destruct (run_handler (f (hdrType h)) p) as [ferr p1]. simpl in Hk3. subst p1.
  simpl in Hk1, Hk2. split; [|exists k; split; [lia | done]].
  rewrite Copy_Discard_advance by (simpl; lia).
  rewrite advance_advance. cbn [fst R N advance]. rewrite length_drop.
  f_equal.
  - by destruct ferr.
  - subst p. cbn [R N]. f_equal. lia.
Qed.

(** C5: on a stream that starts with a header carrying the magic and
    declaring [L] payload bytes, at least [L] bytes following, one
    [ReadMessage] with any handler leaves the stream exactly [14 + L]
    bytes further; the handler stops at some point within the payload,
    and returns the result of the call. *)
Theorem ReadMessage_consumes_exactly_frame (s : stream) (f : MessageHandler) :
  let h := decode_header (take header_size s) in
  let L := Z.to_nat (hdrLength h) in
  let p := Limited (drop header_size s) (hdrLength h) in
  (header_size + L ≤ length s)%nat → hdrMagic h = Magic →
  header_size = 14%nat
  ∧ rest (ReadMessage s f) = drop (header_size + L) s
  ∧ (∃ k : nat, (k ≤ L)%nat ∧ (run_handler (f (hdrType h)) p).2 = advance k p)
  ∧ result (ReadMessage s f) = (run_handler (f (hdrType h)) p).1
  ∧ calls (ReadMessage s f) = [(hdrType h, take L (drop header_size s))].
Proof.
  intros h L p Hlen Hmagic.
  destruct (ReadMessage_after_header s (drop header_size s) h f) as [-> Hk].
  - apply binary_Read_long. lia.
  - done.
  - apply Uint32_nonneg.
  - rewrite length_drop. fold L. lia.
  - cbn [rest result calls]. rewrite drop_drop. done.
Qed.

Lemma ReadMessage_consumes_exactly_frame_witness :
  rest (ReadMessage sample_frame sample_handler) = [x69]
  ∧ result (ReadMessage sample_frame sample_handler) = Some (ErrNew "stop").
Proof.
  destruct (ReadMessage_consumes_exactly_frame sample_frame sample_handler)
    as (_ & Hrest & _ & Hres & _).
  - vm_compute. lia.
  - vm_compute. reflexivity.
  - split; [rewrite Hrest | rewrite Hres]; reflexivity.
Defined.

(** C6, with the short read at the header: when the first 14 bytes
    carry a magic other than [Magic], [ReadMessage] returns the
    invalid-magic error, a protocol error, the handler is not called and
    the stream is left right after the header; when the stream ends
    before the 14 header bytes are complete, the result is [io.EOF] (no
    byte came) or [io.ErrUnexpectedEOF], an IO error, and again no
    handler call. *)
Theorem ReadMessage_rejects_bad_magic (s : stream) (f : MessageHandler) :
  ((header_size ≤ length s)%nat →
   hdrMagic (decode_header (take header_size s)) ≠ Magic →
     ReadMessage s f
     = Outcome (Some (ErrNew "invalid magic string")) (drop 14 s) []
     ∧ kind_of (ErrNew "invalid magic string") = ProtocolError)
  ∧ ((length s < header_size)%nat →
     ∃ e, ReadMessage s f = Outcome (Some e) [] []
          ∧ e = (if decide (s = []) then EOF else ErrUnexpectedEOF)
          ∧ kind_of e = IOError).
Proof.
  split.
  - intros Hlen Hmagic. unfold ReadMessage.
    rewrite binary_Read_long by done. by rewrite decide_True by done.
  - intros Hlen. unfold ReadMessage. rewrite binary_Read_short by done.
    eexists. split; [reflexivity|]. split; [reflexivity|]. by case_decide.
Qed.

Lemma ReadMessage_rejects_bad_magic_witness :
  ReadMessage sample_bad_frame sample_handler
  = Outcome (Some (ErrNew "invalid magic string")) [x7b; x7d; x0a; x69] []
  ∧ ∃ e, ReadMessage (take 5 sample_frame) sample_handler = Outcome (Some e) [] []
         ∧ kind_of e = IOError.
Proof.
  destruct (ReadMessage_rejects_bad_magic sample_bad_frame sample_handler) as [Hbad _].
  destruct (ReadMessage_rejects_bad_magic (take 5 sample_frame) sample_handler)
    as [_ Hshort].
  split.
  - destruct Hbad as [-> _]; [vm_compute; lia | vm_compute; discriminate | reflexivity].
  - destruct Hshort as (e & He & _ & Hk); [vm_compute; lia|]. by exists e.
Defined.

(** C6 as stated fails on a stream that ends inside the payload: a
    header with the right magic declaring 3 payload bytes, one of which
    arrives, and a handler that returns nil; [ReadMessage] returns nil. *)
Lemma short_payload_read_yields_no_error :
  cut_short (take 15 sample_frame)
  ∧ result (ReadMessage (take 15 sample_frame) (λ _, HReturn None)) = None
  ∧ ¬ yields_IO_error (take 15 sample_frame) (λ _, HReturn None).
Proof.
  assert (E : result (ReadMessage (take 15 sample_frame) (λ _, HReturn None)) = None)
    by (vm_compute; reflexivity).
  split; [|split; [exact E|]].
  - right. split; [vm_compute; reflexivity | vm_compute; lia].
  - intros (e & He & _). rewrite E in He. discriminate.
Qed.

(** Past the header the end of the stream is not an error of
    [ReadMessage] itself: [Discard] takes [io.EOF] for the end of the
    copy, so a payload cut short is reported only if the handler reads
    far enough to meet it. *)
Lemma ReadMessage_truncated_payload :
  ReadMessage (take 15 sample_frame) (λ _, HReturn None)
  = Outcome None [] [(SUBSCRIBE, [x7b])].
Proof. vm_compute. reflexivity. Qed.

(** *** [WriteJSONMessage] and back *)

Lemma WriteJSONMessage_buffer {V : Type} (marshal : V → list byte + error)
    (t : MessageType) (v : V) (b : list byte) :
  marshal v = inl b →
  WriteJSONMessage marshal ([] : list byte) t v
  = (encode_header (Header Magic (uint32 (Z.of_nat (length b))) t) ++ b, None).
Proof.
  intros Hm. unfold WriteJSONMessage, binary_Write, Write, buffer_Writer.
  rewrite Hm. cbn [app]. by rewrite decide_False by lia.
Qed.

Lemma ReadMessage_written (len : Z) (t : MessageType) (b : list byte) f :
  0 ≤ len < 2 ^ 32 → 0 ≤ t < 2 ^ 32 → (Z.to_nat len ≤ length b)%nat →
  ReadMessage (encode_header (Header Magic len t) ++ b) f
  = Outcome (run_handler (f t) (Limited b len)).1
            (drop (Z.to_nat len) b) [(t, take (Z.to_nat len) b)].
Proof.
  intros Hlen Ht Hb.
  destruct (ReadMessage_after_header
              (encode_header (Header Magic len t) ++ b) b (Header Magic len t) f)
    as [-> _]; try done.
  - by apply binary_Read_encoded.
  - simpl. lia.
Qed.

Section RoundTrip.
Context {V D : Type}.
(** [json.Marshal], a decoder of payloads into documents, and what it
    means for a document to be equivalent to a value; the decoder reads
    back what [json.Marshal] wrote. *)
Variable marshal : V → list byte + error.
Variable unmarshal : list byte → option D.
Variable equivalent : D → V → Prop.
Hypothesis json_roundtrip :
  ∀ v b, marshal v = inl b → ∃ d, unmarshal b = Some d ∧ equivalent d v.

(** C4, for encodings shorter than 2^32 bytes: after
    [WriteJSONMessage] into an empty buffer, [ReadMessage] on the bytes
    written calls the handler once with the type code written and a
    payload reader holding exactly the encoding, which decodes to a
    document equivalent to the value; it consumes all the bytes and
    returns what the handler returns, so no error if the handler has
    none. *)
Theorem write_then_read_roundtrip (t : MessageType) (v : V) (b : list byte)
    (f : MessageHandler) :
  0 ≤ t < 2 ^ 32 → marshal v = inl b → Z.of_nat (length b) < 2 ^ 32 →
  ∃ wire : list byte,
    WriteJSONMessage marshal [] t v = (wire, None)
    ∧ calls (ReadMessage wire f) = [(t, b)]
    ∧ (∃ d, unmarshal b = Some d ∧ equivalent d v)
    ∧ rest (ReadMessage wire f) = []
    ∧ result (ReadMessage wire f)
      = (run_handler (f t) (Limited b (Z.of_nat (length b)))).1
    ∧ ((run_handler (f t) (Limited b (Z.of_nat (length b)))).1 = None →
       result (ReadMessage wire f) = None).
Proof.
  intros Ht Hm Hlen. eexists. split; [by apply WriteJSONMessage_buffer|].
  unfold uint32. rewrite Z.mod_small by lia.
  rewrite ReadMessage_written by lia. cbn [calls rest result].
  rewrite Nat2Z.id, firstn_all, drop_all.
  split; [done|]. split; [by apply json_roundtrip|]. done.
Qed.

End RoundTrip.

Lemma write_then_read_roundtrip_witness :
  ∃ wire : list byte,
    WriteJSONMessage marshal_raw [] SUBSCRIBE [x7b; x7d] = (wire, None)
    ∧ calls (ReadMessage wire sample_handler) = [(SUBSCRIBE, [x7b; x7d])].
Proof.
  destruct (write_then_read_roundtrip marshal_raw Some eq
              (λ v b E, ex_intro _ b (conj eq_refl (eq_sym (f_equal (λ x, match x with inl y => y | inr _ => v end) E))))
              SUBSCRIBE [x7b; x7d] [x7b; x7d] sample_handler)
    as (wire & Hw & Hc & _).
  - unfold SUBSCRIBE. lia.
  - reflexivity.
  - vm_compute. reflexivity.
  - by exists wire.
Defined.

(** A payload of exactly 2^32 bytes is written with length field 0, so
    the handler is handed an empty payload reader. *)
Lemma oversized_breaks_roundtrip (b : list byte) :
  Z.of_nat (length b) = 2 ^ 32 → ¬ roundtrip_holds marshal_raw SUBSCRIBE b.
Proof.
  intros Hl Hclaim.
  destruct (Hclaim b (λ _, HReturn None) eq_refl) as (wire & Hw & Hc).
  rewrite (WriteJSONMessage_buffer marshal_raw SUBSCRIBE b b eq_refl) in Hw.
  rewrite Hl in Hw. change (uint32 (2 ^ 32)) with 0 in Hw.
  assert (Ew : wire = encode_header (Header Magic 0 SUBSCRIBE) ++ b) by congruence.
  subst wire. clear Hw.
  rewrite ReadMessage_written in Hc; [| lia | unfold SUBSCRIBE; lia | simpl; lia].
  cbn [calls] in Hc. change (Z.to_nat 0) with 0%nat in Hc.
  rewrite take_0 in Hc.
  assert (Eb : b = []) by congruence.
  rewrite Eb in Hl. simpl in Hl. lia.
Qed.

Lemma length_big_document : Z.of_nat (length big_document) = 2 ^ 32.
Proof.
  unfold big_document. cbn [length]. rewrite length_app, repeat_length.
  cbn [length]. rewrite Nat2Z.inj_succ, Nat2Z.inj_add, Z2Nat.id by lia. lia.
Qed.

(** C4 as stated fails at a value whose encoding has 2^32 bytes. *)
Lemma roundtrip_fails_on_oversized_payload :
  ¬ roundtrip_holds marshal_raw SUBSCRIBE big_document.
Proof.
  apply oversized_breaks_roundtrip. apply length_big_document.
Qed.

End IpcFacts.

(** ** [main] *)

Module MainFacts.
Import Main.

Section ProgramFacts.
Context {Conn Time : Type}.
Variable getenv : string → string.
Variable dial : string → Conn + string.
Variable Format : Time → string → string.
Variable WriteString : string → nat * option error.

Local Abbreviation Connect := (Ipc.Connect getenv dial).
Local Abbreviation connect_phase := (connect_phase getenv dial).
Local Abbreviation iterate := (iterate Format WriteString).
Local Abbreviation run_loop := (run_loop Format WriteString).
Local Abbreviation candidate := (candidate Format).

(** *** Connecting *)

Lemma Connect_env :
  Connect "" = if decide (getenv "SWAYSOCK" = "") then inr ErrNoIPC
               else match dial (getenv "SWAYSOCK") with
                    | inl c => inl c
                    | inr msg => inr (ErrExternal msg)
                    end.
Proof.
  unfold Ipc.Connect. rewrite !(decide_True (P := String.length "" = 0)) by done.
  destruct (decide (getenv "SWAYSOCK" = "")) as [E|E].
  - rewrite decide_True; [done | by apply strlen_zero].
  - rewrite decide_False; [done | by rewrite strlen_zero].
Qed.

Lemma Connect_path path :
  path ≠ "" →
  Connect path = match dial path with
                 | inl c => inl c
                 | inr msg => inr (ErrExternal msg)
                 end.
Proof.
  intros Hp. unfold Ipc.Connect.
  assert (Hl : String.length path ≠ 0) by (by rewrite strlen_zero).
  rewrite (decide_False (P := String.length path = 0)) by done.
  by rewrite (decide_False (P := String.length path = 0)) by done.
Qed.

Lemma Connect_NoIPC_iff : Connect "" = inr ErrNoIPC ↔ getenv "SWAYSOCK" = "".
Proof.
  rewrite Connect_env. case_decide; [done|].
  split; [|done]. by destruct (dial _).
Qed.

(** With no connection the layout stays empty and every line written is
    a formatted time. *)
Lemma run_loop_time_only format st evs :
  layout st = "" → Forall is_tick evs →
  Forall (λ w, ∃ t, w = Format t format) (run_loop format st evs).1.
Proof.
  revert st. induction evs as [|ev evs IH]; intros st Hl Hev; [constructor|].
  inversion Hev as [|? ? Htick Hrest]; subst.
  destruct ev as [|t]; [done|]. cbn [Main.run_loop].
  assert (Hc : candidate format st (Tick t) = Format t format).
  { unfold Main.candidate. by rewrite Hl. }
  unfold Main.iterate. rewrite Hc. case_decide.
  - destruct (WriteString (Format t format)) as [n [e|]].
    + repeat constructor. by exists t.
    + case_decide.
      * repeat constructor. by exists t.
      * specialize (IH (LoopState (layout st) (Format t format)) Hl Hrest).
        destruct (run_loop format _ evs) as [ws r]. simpl in *.
        constructor; [by exists t | done].
  - specialize (IH (LoopState (layout st) (prevStatus st)) Hl Hrest).
    by destruct (run_loop format _ evs) as [ws r].
Qed.

(** C8: [Connect("")] takes the path from [SWAYSOCK] and fails with
    [ErrNoIPC] exactly when that is empty too; [main] then, and only
    then, goes on without a monitor, with a format that has no layout
    separator, and writes nothing but formatted times; when [SWAYSOCK]
    is set and dialing fails, [main] exits with status 1. *)
Theorem connect_failure_modes (format : string) :
  (Connect "" = inr ErrNoIPC ↔ getenv "SWAYSOCK" = "")
  ∧ (getenv "SWAYSOCK" ≠ "" →
     Connect "" = match dial (getenv "SWAYSOCK") with
                  | inl c => inl c
                  | inr msg => inr (ErrExternal msg)
                  end)
  ∧ Error ErrNoIPC = "Sway IPC socket path is unknown"
  ∧ kind_of ErrNoIPC = ConfigurationError
  ∧ (Connect "" = inr ErrNoIPC ↔
     connect_phase format = Started None (format ++ LF))
  ∧ ((∃ fmt, connect_phase format = Started None fmt) → Connect "" = inr ErrNoIPC)
  ∧ (∀ evs, Forall is_tick evs →
       Forall (λ w, ∃ t, w = Format t (format ++ LF))
              (run_loop (format ++ LF) loop_init evs).1)
  ∧ (∀ msg, getenv "SWAYSOCK" ≠ "" → dial (getenv "SWAYSOCK") = inr msg →
       connect_phase format
       = Exit 1 ("failed to connect to Sway: " ++ msg ++ LF)).
Proof.
  split; [apply Connect_NoIPC_iff|].
  split; [intros Hne; rewrite Connect_env; by rewrite decide_False|].
  split; [done|]. split; [done|].
  split; [|split; [|split]].
  - unfold Main.connect_phase. split.
    + intros ->. by rewrite decide_False by (intros Hne; by apply Hne).
    + destruct (Connect "") as [c|e]; [done|].
      case_decide; [done|]. intros _. f_equal.
      destruct (decide (e = ErrNoIPC)); [done|]. by exfalso.
  - intros [fmt Hs]. unfold Main.connect_phase in Hs.
    destruct (Connect "") as [c|e]; [done|].
    destruct (decide (e ≠ ErrNoIPC)) as [|Hn]; [done|].
    f_equal. by destruct (decide (e = ErrNoIPC)).
  - intros evs Hev. by apply run_loop_time_only.
  - intros msg Hne Hd. unfold Main.connect_phase.
    rewrite Connect_env, decide_False, Hd by done.
    by rewrite decide_True by done.
Qed.

(** *** Deduplication *)

Lemma iterate_same format st ev :
  candidate format st ev = prevStatus st →
  ∃ st', iterate format st ev = Next st' [] ∧ prevStatus st' = prevStatus st.
Proof.
  intros E. unfold Main.iterate. rewrite decide_False by (intros Hne; by apply Hne).
  by eexists.
Qed.

Lemma iterate_differs format st ev :
  candidate format st ev ≠ prevStatus st →
  writes_of (iterate format st ev) = [candidate format st ev]
  ∧ ∀ st' ws, iterate format st ev = Next st' ws →
              prevStatus st' = candidate format st ev.
Proof.
  intros Hne. unfold Main.iterate. rewrite decide_True by done.
  destruct (WriteString _) as [n [e|]]; [split; [done|]; by intros|].
  case_decide; split; try done; by intros ? ? [= <- <-].
Qed.

Lemma iterate_prevStatus format st ev st' ws :
  iterate format st ev = Next st' ws →
  prevStatus st' = candidate format st ev
  ∧ ws = if decide (candidate format st ev = prevStatus st) then []
         else [candidate format st ev].
Proof.
  intros Hit. destruct (decide (candidate format st ev = prevStatus st)) as [E|E].
  - destruct (iterate_same format st ev E) as (st1 & H1 & Hp).
    rewrite H1 in Hit. injection Hit as <- <-. by rewrite Hp.
  - destruct (iterate_differs format st ev E) as [Hw Hn].
    rewrite Hit in Hw. simpl in Hw. split; [by eapply Hn | done].
Qed.

(** C9, as the loop does it: of two consecutive iterations with the same
    candidate the second writes nothing, and the first writes the
    candidate, in one call, exactly when it differs from the string
    written last, so the pair makes one write then and none otherwise;
    any iteration whose candidate differs from the string written last
    passes it to [io.WriteString] once, whole. *)
Theorem identical_candidates_written_once (format : string)
    (st st1 : loop_state) (e1 e2 : event) (w1 : list string) :
  iterate format st e1 = Next st1 w1 →
  candidate format st1 e2 = candidate format st e1 →
  (∃ st2, iterate format st1 e2 = Next st2 [])
  ∧ (w1 ++ writes_of (iterate format st1 e2))%list
    = (if decide (candidate format st e1 = prevStatus st) then []
       else [candidate format st e1])
  ∧ (∀ st0 ev, candidate format st0 ev ≠ prevStatus st0 →
       writes_of (iterate format st0 ev) = [candidate format st0 ev]).
Proof.
  intros H1 Hc.
  destruct (iterate_prevStatus format st e1 st1 w1 H1) as [Hp Hw].
  destruct (iterate_same format st1 e2) as (st2 & H2 & _); [congruence|].
  split; [by exists st2|]. split.
  - rewrite H2. simpl. by rewrite app_nil_r.
  - intros st0 ev Hne. by apply iterate_differs.
Qed.

End ProgramFacts.

Lemma connect_failure_modes_witness :
  connect_phase (Conn := unit) (λ _, "") (λ _, inr "refused") "15:04"
  = Started None ("15:04" ++ LF)
  ∧ connect_phase (Conn := unit) (λ _, "/run/sway.sock") (λ _, inr "refused") "15:04"
    = Exit 1 ("failed to connect to Sway: refused" ++ LF).
Proof.
  split.
  - apply (connect_failure_modes (Conn := unit) (Time := Z)
             (λ _, "") (λ _, inr "refused") Format_literal WriteString_ok "15:04").
    reflexivity.
  - apply (connect_failure_modes (Conn := unit) (Time := Z)
             (λ _, "/run/sway.sock") (λ _, inr "refused")
             Format_literal WriteString_ok "15:04");
      [discriminate | reflexivity].
Defined.

Lemma identical_candidates_written_once_witness :
  writes_of (iterate (Time := Z) Format_literal WriteString_ok ("now" ++ LF)
               loop_init (Tick 0%Z)) = ["now" ++ LF]
  ∧ ∃ st2, iterate (Time := Z) Format_literal WriteString_ok ("now" ++ LF)
             (LoopState "" ("now" ++ LF)) (Tick 1%Z) = Next st2 [].
Proof.
  split; [reflexivity|].
  apply (identical_candidates_written_once (Time := Z)
           Format_literal WriteString_ok ("now" ++ LF)
           loop_init (LoopState "" ("now" ++ LF)) (Tick 0%Z) (Tick 1%Z)
           ["now" ++ LF]); reflexivity.
Defined.

(** C9 read literally fails on three ticks that format alike: the second
    and third iterations compute the same candidate and write nothing. *)
Lemma identical_pair_without_write :
  ¬ one_write_per_identical_pair (Time := Z) Format_literal WriteString_ok
      ("now" ++ LF).
Proof.
  intros Hclaim.
  specialize (Hclaim (LoopState "" ("now" ++ LF)) (Tick 1%Z) (Tick 2%Z)
                (LoopState "" ("now" ++ LF)) [] (LoopState "" ("now" ++ LF)) []).
  simpl in Hclaim. enough (0 = 1) by lia. apply Hclaim; try reflexivity.
  exists [Tick 0%Z], ["now" ++ LF]. reflexivity.
Qed.

End MainFacts.

(** ** More on the device registry *)

Module RegistryMore.
Import Registry.
Local Open Scope list_scope.

Lemma kbds_at_default m k : kbds_at m k = at_key (default ∅ (kbds m)) k.
Proof. unfold kbds_at. by destruct (kbds m). Qed.

Lemma strlen_nonzero (s : string) : s ≠ "" → String.length s ≠ 0.
Proof. intros Hs Hl. by apply strlen_zero in Hl. Qed.

(** X1: [set] with a layout stores it for the device, whatever the
    registry held, and neither [set] nor [del] changes the layout stored
    for any other device. *)
Theorem set_stores_layout (m : monitor) (id l : string) :
  l ≠ "" →
  layout (kbds_at (set m id l) id) = l
  ∧ (∀ id', id' ≠ id →
       layout (kbds_at (set m id l) id') = layout (kbds_at m id')
       ∧ layout (kbds_at (del m id) id') = layout (kbds_at m id')).
Proof.
  intros Hl. split.
  - unfold set. rewrite decide_False by (by apply strlen_nonzero).
    repeat case_decide; unfold kbds_at; simpl;
      rewrite ?RegistryFacts.at_key_insert, ?decide_True by done; done.
  - intros id' Hne. split.
    + unfold set. rewrite decide_False by (by apply strlen_nonzero).
      rewrite (kbds_at_default m id').
      repeat case_decide; unfold kbds_at; simpl;
        rewrite ?RegistryFacts.at_key_insert, ?decide_False by done;
        rewrite ?RegistryFacts.layout_unlink; done.
    + unfold del. case_decide; [done|].
      unfold kbds_at. destruct (kbds m) as [g|] eqn:E; [|by rewrite E]. simpl.
      rewrite RegistryFacts.layout_unlink, RegistryFacts.at_key_delete.
      by rewrite decide_False by done.
Qed.

Lemma set_stores_layout_witness :
  layout (kbds_at (set (run [OpSet "kbd0" "us"; OpSet "kbd1" "de"]) "kbd0" "fr") "kbd0")
  = "fr".
Proof.
  apply (set_stores_layout (run [OpSet "kbd0" "us"; OpSet "kbd1" "de"]) "kbd0" "fr").
  discriminate.
Defined.

(** X4: a [set] whose layout differs from the stored one makes the
    device the tail: [lastKbd] is its identifier, the monitor reports the
    new layout, and unless it was the tail already its [prevDev] is the
    former tail. *)
Theorem changed_set_becomes_tail (m : monitor) (id l : string) :
  l ≠ "" → layout (kbds_at m id) ≠ l →
  lastKbd (set m id l) = id
  ∧ currentLayout (set m id l) = l
  ∧ (lastKbd m ≠ id → prevDev (kbds_at (set m id l) id) = lastKbd m).
Proof.
  intros Hl Hdiff. rewrite kbds_at_default in Hdiff.
  unfold currentLayout, set.
  rewrite decide_False by (by apply strlen_nonzero).
  rewrite (decide_False (P := layout _ = l)) by done.
  destruct (decide (lastKbd m ≠ id)) as [Hne|Heq]; unfold kbds_at; simpl.
  - rewrite RegistryFacts.at_key_insert, decide_True by done. done.
  - assert (E : lastKbd m = id) by (by destruct (decide (lastKbd m = id))).
    rewrite E, RegistryFacts.at_key_insert, decide_True by done. done.
Qed.

Lemma changed_set_becomes_tail_witness :
  currentLayout (set (run [OpSet "kbd0" "us"; OpSet "kbd1" "de"]) "kbd0" "fr") = "fr".
Proof.
  apply (changed_set_becomes_tail
           (run [OpSet "kbd0" "us"; OpSet "kbd1" "de"]) "kbd0" "fr");
    [discriminate | vm_compute; discriminate].
Defined.

(** *** The tail pointer names a record *)

Lemma relink_prev_keeps k l1 (g : gmap string kbdDev) :
  is_Some (g !! k) → is_Some (relink_prev l1 g !! k).
Proof.
  intros Hk. unfold relink_prev. case_decide; [|done].
  rewrite lookup_insert. by case_decide.
Qed.

Lemma relink_next_keeps k l1 (g : gmap string kbdDev) :
  is_Some (g !! k) → is_Some (relink_next l1 g !! k).
Proof.
  intros Hk. unfold relink_next. case_decide; [|done].
  rewrite lookup_insert. by case_decide.
Qed.

Lemma unlink_keeps k l1 (g : gmap string kbdDev) :
  is_Some (g !! k) → is_Some (unlink l1 g !! k).
Proof. intros Hk. by apply relink_next_keeps, relink_prev_keeps. Qed.

Lemma unlink_has_prev l1 (g : gmap string kbdDev) :
  prevDev l1 ≠ "" → is_Some (unlink l1 g !! prevDev l1).
Proof.
  intros Hp. apply relink_next_keeps. unfold relink_prev.
  rewrite decide_True by (by apply strlen_pos).
  by rewrite lookup_insert_eq.
Qed.

Lemma del_tail_present m id :
  (lastKbd m ≠ "" → ∃ g, kbds m = Some g ∧ is_Some (g !! lastKbd m)) →
  lastKbd (del m id) ≠ "" →
  ∃ g, kbds (del m id) = Some g ∧ is_Some (g !! lastKbd (del m id)).
Proof.
  intros Hm. unfold del. case_decide; [done|].
  destruct (kbds m) as [g|] eqn:E;
    [|intros Hl; by destruct (Hm Hl) as (? & ? & _)].
  simpl. intros Hlast. eexists. split; [done|].
  case_decide as Hid.
  - by apply unlink_has_prev.
  - destruct (Hm Hlast) as (g' & [= <-] & Hg).
    apply unlink_keeps. by rewrite lookup_delete_ne.
Qed.

Lemma set_tail_present m id l :
  (lastKbd m ≠ "" → ∃ g, kbds m = Some g ∧ is_Some (g !! lastKbd m)) →
  lastKbd (set m id l) ≠ "" →
  ∃ g, kbds (set m id l) = Some g ∧ is_Some (g !! lastKbd (set m id l)).
Proof.
  intros Hm. unfold set. case_decide; [by apply del_tail_present|].
  repeat case_decide; simpl; intros Hlast; eexists; (split; [done|]).
  - destruct (Hm Hlast) as (g' & -> & Hg). done.
  - by rewrite lookup_insert_eq.
  - assert (E : lastKbd m = id) by (by destruct (decide (lastKbd m = id))).
    by rewrite E, lookup_insert_eq.
Qed.

Lemma foldl_tail_present ops m :
  (lastKbd m ≠ "" → ∃ g, kbds m = Some g ∧ is_Some (g !! lastKbd m)) →
  lastKbd (foldl apply_op m ops) ≠ "" →
  ∃ g, kbds (foldl apply_op m ops) = Some g
       ∧ is_Some (g !! lastKbd (foldl apply_op m ops)).
Proof.
  revert m. induction ops as [|o ops IH]; intros m Hm; [done|].
  simpl. apply IH. destruct o; [by apply set_tail_present | by apply del_tail_present].
Qed.

(** X3: after any sequence of [set] and [del] from the empty registry,
    [lastKbd] is empty or is the key of a record of the map, and that
    record has no forward link. *)
Theorem tail_is_empty_or_record (ops : list op) :
  lastKbd (run ops) = "" ∨ tail_is_record (run ops).
Proof.
  destruct (decide (lastKbd (run ops) = "")) as [|Hne]; [by left|right].
  destruct (foldl_tail_present ops newMonitor) as (g & Hg & [r Hr]); [done..|].
  exists g, r. split; [done|]. split; [done|].
  assert (Hinv : next_empty_inv (run ops)).
  { apply RegistryFacts.foldl_next_empty. by intros ?. }
  by apply (Hinv g Hg (lastKbd (run ops)) r).
Qed.

(** *** [del] removes the record *)

Lemma no_self_link_step (g : gmap string kbdDev) l1 :
  next_all_empty g → nextDev l1 = "" →
  (∀ k r, g !! k = Some r → prevDev r ≠ "" → prevDev r ≠ k) →
  ∀ k r, unlink l1 g !! k = Some r → prevDev r ≠ "" → prevDev r ≠ k.
Proof.
  intros Hnext Hl1 Hg k r. unfold unlink.
  rewrite RegistryFacts.relink_next_skip by done.
  unfold relink_prev. case_decide; [|apply Hg].
  rewrite lookup_insert. case_decide as Hk; [|apply Hg].
  intros [= <-]. simpl. subst k. unfold at_key.
  destruct (g !! prevDev l1) as [r|] eqn:E; simpl; [by apply Hg | done].
Qed.

Lemma no_self_link_inv ops m :
  next_empty_inv m →
  (∀ g k r, kbds m = Some g → g !! k = Some r → prevDev r ≠ "" → prevDev r ≠ k) →
  ∀ g k r, kbds (foldl apply_op m ops) = Some g → g !! k = Some r →
           prevDev r ≠ "" → prevDev r ≠ k.
Proof.
  revert m. induction ops as [|o ops IH]; intros m Hnext Hm; [done|].
  simpl. apply IH.
  { destruct o; [by apply RegistryFacts.set_next_empty
                | by apply RegistryFacts.del_next_empty]. }
  assert (Hdel : ∀ id g k r, kbds (del m id) = Some g → g !! k = Some r →
                             prevDev r ≠ "" → prevDev r ≠ k).
  { intros id g k r. unfold del. case_decide; [apply Hm|].
    destruct (kbds m) as [g0|] eqn:E; [|by rewrite E]. intros [= <-].
    apply no_self_link_step.
    - apply RegistryFacts.next_all_empty_delete. by apply Hnext.
    - apply RegistryFacts.at_key_next_empty. by apply Hnext.
    - intros k' r'. rewrite lookup_delete. case_decide; [done|]. by apply Hm. }
  destruct o as [id l|id]; [|apply Hdel]. simpl.
  unfold set. case_decide; [apply Hdel|].
  assert (Hg0 : next_all_empty (default ∅ (kbds m))).
  { destruct (kbds m) as [g0|] eqn:E; simpl; [by apply Hnext|].
    intros ? ?. by rewrite lookup_empty. }
  assert (Hs0 : ∀ k r, default ∅ (kbds m) !! k = Some r →
                       prevDev r ≠ "" → prevDev r ≠ k).
  { intros k r Hk. destruct (kbds m) as [g0|] eqn:E; simpl in Hk;
      [exact (Hm g0 k r eq_refl Hk) | by rewrite lookup_empty in Hk]. }
  intros g k r. repeat case_decide; intros [= <-].
  - apply Hs0.
  - rewrite lookup_insert. case_decide.
    + intros [= <-]. simpl. by subst k.
    + apply no_self_link_step; try done.
      by apply RegistryFacts.at_key_next_empty.
  - rewrite lookup_insert. case_decide; [|apply Hs0].
    intros [= <-]. simpl. subst k. unfold at_key.
    destruct (default ∅ (kbds m) !! id) as [r0|] eqn:E; simpl; [by apply Hs0|done].
Qed.

(** X2: in every registry reached from the empty one, [del] of a named
    device leaves no record under its identifier. *)
Theorem del_removes_record (ops : list op) (id : string) (g : gmap string kbdDev) :
  id ≠ "" → kbds (del (run ops) id) = Some g → g !! id = None.
Proof.
  intros Hid. unfold del. rewrite decide_False by (by apply RegistryMore.strlen_nonzero).
  destruct (kbds (run ops)) as [g0|] eqn:E; [|by rewrite E]. intros [= <-].
  assert (Hnext : next_all_empty g0).
  { assert (H : next_empty_inv (run ops))
      by (apply RegistryFacts.foldl_next_empty; by intros ?).
    by apply H. }
  unfold unlink.
  rewrite RegistryFacts.relink_next_skip
    by (by apply RegistryFacts.at_key_next_empty).
  unfold relink_prev. case_decide as Hp; [|by rewrite lookup_delete_eq].
  rewrite lookup_insert_ne; [by rewrite lookup_delete_eq|].
  unfold at_key in *. destruct (g0 !! id) as [r|] eqn:Er; simpl in *; [|lia].
  apply (no_self_link_inv ops newMonitor) with (g := g0); try done.
  by apply strlen_pos.
Qed.

Lemma del_removes_record_witness :
  ∃ g, kbds (del (run [OpSet "kbd0" "us"; OpSet "kbd1" "de"]) "kbd1") = Some g
       ∧ g !! "kbd1" = None ∧ is_Some (g !! "kbd0").
Proof.
  eexists. split; [reflexivity|]. split.
  - apply (del_removes_record [OpSet "kbd0" "us"; OpSet "kbd1" "de"] "kbd1");
      [discriminate | reflexivity].
  - vm_compute. eexists. reflexivity.
Defined.

(** *** The first deletion after a run of [set] calls *)

Lemma remove_notin id (s : list (string * string)) :
  id ∉ s.*1 → RegistrySpec.remove id s = s.
Proof.
  unfold RegistrySpec.remove. induction s as [|[k l] s IH]; [done|].
  simpl. intros Hk. apply not_elem_of_cons in Hk as [Hne Hk].
  rewrite filter_cons_True by (simpl; congruence). by rewrite IH.
Qed.

Lemma remove_snoc id k l (s : list (string * string)) :
  RegistrySpec.remove id (s ++ [(k, l)])
  = (RegistrySpec.remove id s ++ if decide (k = id) then [] else [(k, l)])%list.
Proof.
  unfold RegistrySpec.remove. rewrite filter_app. f_equal.
  case_decide as Hk.
  - by rewrite filter_cons_False by (simpl; intros Hn; by apply Hn).
  - by rewrite filter_cons_True by done.
Qed.

Lemma remove_tail id l (s0 : list (string * string)) :
  NoDup (s0 ++ [(id, l)]).*1 → RegistrySpec.remove id (s0 ++ [(id, l)]) = s0.
Proof.
  intros Hnd. rewrite remove_snoc, decide_True by done.
  rewrite app_nil_r. apply remove_notin.
  rewrite fmap_app in Hnd. apply NoDup_app in Hnd as (_ & Hdisj & _).
  intros Hin. apply (Hdisj id Hin). simpl. by apply list_elem_of_singleton.
Qed.

Lemma mostRecentId_remove_ne id (s : list (string * string)) :
  RegistrySpec.mostRecentId s ≠ id →
  RegistrySpec.mostRecentId (RegistrySpec.remove id s) = RegistrySpec.mostRecentId s.
Proof.
  destruct s as [|[k l] s _] using rev_ind; [done|].
  rewrite RegistryFacts.mostRecentId_snoc. intros Hk.
  rewrite remove_snoc, decide_False by done.
  by rewrite RegistryFacts.mostRecentId_snoc.
Qed.

Lemma mostRecentId_named id (s : list (string * string)) :
  RegistrySpec.mostRecentId s = id → id ≠ "" → ∃ s0 l, s = (s0 ++ [(id, l)])%list.
Proof.
  destruct s as [|[k l] s _] using rev_ind; [by intros <-|].
  rewrite RegistryFacts.mostRecentId_snoc. intros -> _. by exists s, l.
Qed.

(** What a run of [set] calls keeps: the stored layouts, the tail, and
    the tail's back link to the device that was the tail before it. *)
Lemma set_keeps_recency m (s : list (string * string)) id l :
  l ≠ "" → id ≠ "" →
  RegistrySpec.layouts_agree m s →
  lastKbd m = RegistrySpec.mostRecentId s →
  NoDup s.*1 →
  (∀ s0 k l0, s = (s0 ++ [(k, l0)])%list →
     prevDev (kbds_at m k) = RegistrySpec.mostRecentId s0) →
  ∀ s0 k l0, RegistrySpec.set s id l = (s0 ++ [(k, l0)])%list →
    prevDev (kbds_at (set m id l) k) = RegistrySpec.mostRecentId s0.
Proof.
  intros Hl Hid Hag Hlast Hnd Hprev s0 k l0.
  unfold set, RegistrySpec.set.
  rewrite (decide_False (P := String.length l = 0)) by (by apply strlen_nonzero).
  rewrite (decide_False (P := l = "")) by done.
  assert (Hg : layout (at_key (default ∅ (kbds m)) id)
               = default "" (RegistrySpec.find id s)).
  { rewrite <- kbds_at_default. apply Hag. }
  destruct (decide (RegistrySpec.find id s = Some l)) as [Hf|Hf].
  - rewrite decide_True by (by rewrite Hg, Hf).
    intros Hs. rewrite <- (Hprev s0 k l0 Hs).
    unfold kbds_at at 1. simpl. by rewrite kbds_at_default.
  - rewrite decide_False; cycle 1.
    { rewrite Hg. intros Hd. apply Hf.
      destruct (RegistrySpec.find id s); simpl in Hd; congruence. }
    intros Hs. apply app_inj_tail in Hs as [<- [= <- <-]].
    destruct (decide (lastKbd m ≠ id)) as [Hne|Heq]; unfold kbds_at; simpl;
      rewrite RegistryFacts.at_key_insert, decide_True by done; simpl.
    + rewrite Hlast. symmetry. apply mostRecentId_remove_ne. by rewrite <- Hlast.
    + assert (E : lastKbd m = id) by (by destruct (decide (lastKbd m = id))).
      rewrite Hlast in E.
      destruct (mostRecentId_named id s E Hid) as (s1 & l1 & ->).
      rewrite remove_tail by done.
      rewrite <- kbds_at_default. by apply (Hprev s1 id l1).
Qed.

Lemma foldl_sets_keep_recency ops m (s : list (string * string)) :
  Forall RegistrySpec.sets_layout ops → Forall RegistrySpec.names_device ops →
  RegistrySpec.layouts_agree m s →
  lastKbd m = RegistrySpec.mostRecentId s →
  NoDup s.*1 →
  (∀ s0 k l0, s = (s0 ++ [(k, l0)])%list →
     prevDev (kbds_at m k) = RegistrySpec.mostRecentId s0) →
  ∀ s0 k l0, foldl RegistrySpec.apply_op s ops = (s0 ++ [(k, l0)])%list →
    prevDev (kbds_at (foldl apply_op m ops) k) = RegistrySpec.mostRecentId s0.
Proof.
  revert m s. induction ops as [|o ops IH];
    intros m s Hsets Hnames Hag Hlast Hnd Hprev; [done|].
  inversion Hsets as [|? ? Ho Hsets']; subst.
  inversion Hnames as [|? ? Hn Hnames']; subst.
  destruct o as [id l|]; [|done]. simpl in Ho, Hn. simpl.
  apply IH; try done.
  - by apply RegistryFacts.set_layouts_agree.
  - by apply RegistryFacts.set_tail_agrees.
  - by apply (RegistryFacts.spec_keys_NoDup [OpSet id l]).
  - by apply set_keeps_recency.
Qed.

(** X6: after a run of [set] calls on named devices, all with a layout,
    one [del] of a named device leaves the tail where the recency list
    of the specification has it, and the monitor reports that device's
    layout: the tail's predecessor after deleting the tail, the tail
    itself after deleting any other device. *)
Theorem first_deletion_follows_recency (ops : list op) (id : string) :
  Forall RegistrySpec.sets_layout ops → Forall RegistrySpec.names_device ops →
  id ≠ "" →
  lastKbd (run (ops ++ [OpDel id]))
  = RegistrySpec.mostRecentId (RegistrySpec.run (ops ++ [OpDel id]))
  ∧ currentLayout (run (ops ++ [OpDel id]))
    = RegistrySpec.currentLayout (RegistrySpec.run (ops ++ [OpDel id])).
Proof.
  intros Hsets Hnames Hid.
  unfold run, RegistrySpec.run. rewrite !foldl_app. simpl.
  fold (run ops). fold (RegistrySpec.run ops).
  destruct (RegistryFacts.foldl_sets_agree ops newMonitor []) as [Hag Hlast];
    try done.
  fold (run ops) in Hag, Hlast. fold (RegistrySpec.run ops) in Hag, Hlast.
  assert (Hnd : NoDup (RegistrySpec.run ops).*1).
  { apply RegistryFacts.spec_keys_NoDup. constructor. }
  assert (Hprev : ∀ s0 k l0, RegistrySpec.run ops = (s0 ++ [(k, l0)])%list →
            prevDev (kbds_at (run ops) k) = RegistrySpec.mostRecentId s0).
  { apply (foldl_sets_keep_recency ops newMonitor []); try done.
    - constructor.
    - intros s0 k l0 Hs. by destruct s0. }
  assert (Htail : lastKbd (del (run ops) id)
                  = RegistrySpec.mostRecentId (RegistrySpec.delete (RegistrySpec.run ops) id)).
  { unfold RegistrySpec.delete, del.
    rewrite decide_False by (by apply strlen_nonzero).
    destruct (decide (lastKbd (run ops) = id)) as [E|E].
    - rewrite Hlast in E.
      destruct (mostRecentId_named id _ E Hid) as (s1 & l1 & Hs).
      destruct (foldl_tail_present ops newMonitor) as (g & Hg & _); [done| |].
      { fold (run ops). rewrite Hlast, E. done. }
      fold (run ops) in Hg. rewrite Hg. simpl.
      specialize (Hprev s1 id l1 Hs). unfold kbds_at in Hprev.
      rewrite Hg in Hprev. rewrite Hprev.
      rewrite Hs in Hnd |- *. by rewrite remove_tail.
    - rewrite mostRecentId_remove_ne by (by rewrite <- Hlast).
      by destruct (kbds (run ops)) as [g|] eqn:Hg. }
  split; [done|].
  assert (Hag' : RegistrySpec.layouts_agree (del (run ops) id)
                   (RegistrySpec.delete (RegistrySpec.run ops) id)).
  { by apply RegistryFacts.del_layouts_agree. }
  unfold currentLayout. rewrite Hag', Htail. symmetry.
  apply RegistryFacts.spec_current_at_tail.
  by apply (RegistryFacts.spec_keys_NoDup [OpDel id]).
Qed.

Lemma first_deletion_follows_recency_witness :
  currentLayout (run ([OpSet "kbd0" "us"; OpSet "kbd1" "de"; OpSet "kbd0" "fr"]
                      ++ [OpDel "kbd0"])) = "de".
Proof.
  destruct (first_deletion_follows_recency
              [OpSet "kbd0" "us"; OpSet "kbd1" "de"; OpSet "kbd0" "fr"] "kbd0")
    as [_ ->].
  - repeat constructor; discriminate.
  - repeat constructor; discriminate.
  - discriminate.
  - vm_compute. reflexivity.
Defined.

(** X5: as long as every operation is a [set] with a layout, the monitor
    reports the layout at the tail of the specification's recency list:
    that of the device whose layout changed last. *)
Theorem sets_report_latest_change (ops : list op) :
  Forall RegistrySpec.sets_layout ops →
  lastKbd (run ops) = RegistrySpec.mostRecentId (RegistrySpec.run ops)
  ∧ currentLayout (run ops) = RegistrySpec.currentLayout (RegistrySpec.run ops).
Proof.
  intros Hops.
  destruct (RegistryFacts.foldl_sets_agree ops newMonitor []) as [Hag Hlast];
    try done.
  split; [done|].
  unfold currentLayout. fold (run ops) in Hag, Hlast.
  fold (RegistrySpec.run ops) in Hag, Hlast.
  rewrite Hag, Hlast. symmetry. apply RegistryFacts.spec_current_at_tail.
  apply RegistryFacts.spec_keys_NoDup. constructor.
Qed.

Lemma sets_report_latest_change_witness :
  currentLayout (run [OpSet "kbd0" "us"; OpSet "kbd1" "de"; OpSet "kbd0" "us"]) = "de".
Proof.
  destruct (sets_report_latest_change
              [OpSet "kbd0" "us"; OpSet "kbd1" "de"; OpSet "kbd0" "us"]) as [_ ->].
  - repeat constructor; discriminate.
  - vm_compute. reflexivity.
Defined.

(** X13: in every registry reached from the empty one, [del] of a
    device that has no record changes nothing at all. *)
Theorem del_unknown_is_noop (ops : list op) (id : string) :
  (∀ g, kbds (run ops) = Some g → g !! id = None) →
  del (run ops) id = run ops.
Proof.
  intros Hid. unfold del. case_decide as Hlen; [done|].
  destruct (kbds (run ops)) as [g|] eqn:E; [|done].
  specialize (Hid g eq_refl).
  assert (Hz : at_key g id = zeroDev) by (unfold at_key; by rewrite Hid).
  rewrite Hz. unfold unlink, relink_next, relink_prev. simpl.
  rewrite delete_id by done.
  assert (Hne : lastKbd (run ops) ≠ id).
  { intros Heq.
    destruct (foldl_tail_present ops newMonitor) as (g' & Hg' & [r Hr]); [done| |].
    - fold (run ops). rewrite Heq. by apply strlen_pos; lia.
    - fold (run ops) in Hg', Hr. rewrite Heq in Hr. congruence. }
  rewrite decide_False by done.
  destruct (run ops) as [k l p]. simpl in *. by subst.
Qed.

Lemma del_unknown_is_noop_witness :
  del (run [OpSet "kbd0" "us"; OpSet "kbd1" "de"]) "kbd7"
  = run [OpSet "kbd0" "us"; OpSet "kbd1" "de"].
Proof.
  apply (del_unknown_is_noop [OpSet "kbd0" "us"; OpSet "kbd1" "de"] "kbd7").
  intros g [= <-]. vm_compute. reflexivity.
Defined.

End RegistryMore.

(** ** More on the codec *)

Module IpcMore.
Import Ipc Watch.
Import Stdlib.Init.Byte.
Local Open Scope Z_scope.
Local Open Scope list_scope.

(** *** Bytes back into words *)

Lemma Z_of_byte_inj a b : Z_of_byte a = Z_of_byte b → a = b.
Proof.
  unfold Z_of_byte. intros E. apply N2Z.inj in E.
  pose proof (Byte.of_to_N a) as Ha. rewrite E, Byte.of_to_N in Ha. congruence.
Qed.

Lemma testbit_byte b i :
  Z.testbit (Z_of_byte b) i = bool_decide (0 ≤ i < 8) && Z.testbit (Z_of_byte b) i.
Proof.
  pose proof (IpcFacts.Z_of_byte_range b) as Hr.
  destruct (decide (0 ≤ i)) as [Hi|Hi].
  - rewrite <- (Z.mod_small (Z_of_byte b) (2 ^ 8)) at 1 by lia.
    rewrite Z.testbit_mod_pow2 by lia. f_equal.
    case_bool_decide; lia.
  - rewrite Z.testbit_neg_r by lia. by rewrite bool_decide_eq_false_2 by lia.
Qed.

Lemma testbit_byte_out b i : ¬ (0 ≤ i < 8) → Z.testbit (Z_of_byte b) i = false.
Proof.
  intros Hi. rewrite testbit_byte. by rewrite bool_decide_eq_false_2 by done.
Qed.

Lemma testbit_Uint32 b0 b1 b2 b3 m :
  0 ≤ m →
  Z.testbit (Uint32 [b0; b1; b2; b3]) m
  = Z.testbit (Z_of_byte b0) m || Z.testbit (Z_of_byte b1) (m - 8)
    || Z.testbit (Z_of_byte b2) (m - 16) || Z.testbit (Z_of_byte b3) (m - 24).
Proof.
  intros Hm. unfold Uint32. by rewrite !Z.lor_spec, !Z.shiftl_spec by lia.
Qed.

Lemma Uint32_range bs : 0 ≤ Uint32 bs < 2 ^ 32.
Proof.
  split; [apply IpcFacts.Uint32_nonneg|].
  destruct bs as [|b0 [|b1 [|b2 [|b3 [|? ?]]]]]; try (simpl; lia).
  assert (E : Uint32 [b0; b1; b2; b3] = Uint32 [b0; b1; b2; b3] mod 2 ^ 32).
  { apply Z.bits_inj'. intros n Hn. rewrite Z.testbit_mod_pow2 by lia.
    destruct (decide (n < 32)) as [Hlt|Hge].
    - by rewrite (proj2 (Z.ltb_lt n 32) Hlt).
    - rewrite (proj2 (Z.ltb_ge n 32)) by lia. cbn [andb].
      rewrite testbit_Uint32 by lia.
      by rewrite !testbit_byte_out by lia. }
  rewrite E. apply Z.mod_pos_bound. lia.
Qed.

Lemma Uint32_byte_at b0 b1 b2 b3 k n :
  0 ≤ n → 0 ≤ k →
  Z.testbit (Z.land (Z.shiftr (Uint32 [b0; b1; b2; b3]) k) 255) n
  = bool_decide (0 ≤ n < 8)
    && (Z.testbit (Z_of_byte b0) (n + k) || Z.testbit (Z_of_byte b1) (n + k - 8)
        || Z.testbit (Z_of_byte b2) (n + k - 16)
        || Z.testbit (Z_of_byte b3) (n + k - 24)).
Proof.
  intros Hn Hk. rewrite Z.land_spec, IpcFacts.testbit_255.
  rewrite Z.shiftr_spec, testbit_Uint32 by lia. apply andb_comm.
Qed.

Local Ltac byte_of_word :=
  apply Z_of_byte_inj; rewrite IpcFacts.Z_of_byte_of_Z;
  apply Z.bits_inj'; intros n Hn; rewrite Uint32_byte_at by lia;
  destruct (decide (n < 8));
  [ rewrite (bool_decide_eq_true_2 (0 ≤ n < 8)) by lia; cbn [andb]
  | rewrite (bool_decide_eq_false_2 (0 ≤ n < 8)) by lia; cbn [andb];
    symmetry; apply testbit_byte_out; lia ].

Lemma PutUint32_Uint32 b0 b1 b2 b3 :
  PutUint32 (Uint32 [b0; b1; b2; b3]) = [b0; b1; b2; b3].
Proof.
  unfold PutUint32.
  rewrite <- (Z.shiftr_0_r (Uint32 [b0; b1; b2; b3])) at 1.
  f_equal; [|f_equal; [|f_equal; [|f_equal]]].
  - byte_of_word.
    rewrite (testbit_byte_out b1), (testbit_byte_out b2), (testbit_byte_out b3) by lia.
    rewrite !orb_false_r. f_equal. lia.
  - byte_of_word.
    rewrite (testbit_byte_out b0), (testbit_byte_out b2), (testbit_byte_out b3) by lia.
    rewrite !orb_false_r. cbn [orb]. f_equal. lia.
  - byte_of_word.
    rewrite (testbit_byte_out b0), (testbit_byte_out b1), (testbit_byte_out b3) by lia.
    rewrite !orb_false_r. cbn [orb]. f_equal. lia.
  - byte_of_word.
    rewrite (testbit_byte_out b0), (testbit_byte_out b1), (testbit_byte_out b2) by lia.
    cbn [orb]. f_equal. lia.
Qed.

(** *** Headers *)

(** X7: a header Go can hold, written with [binary.Write] to a buffer,
    adds its 14 bytes and no more, and [binary.Read] on them gives the
    same header back and leaves what follows in the stream. *)
Theorem header_write_read (h : MessageHeader) (buf s : list byte) :
  header_wf h →
  binary_Write buf h = (buf ++ encode_header h, None)
  ∧ length (encode_header h) = 14%nat
  ∧ binary_Read (encode_header h ++ s) = (inl h, s).
Proof.
  intros Hwf. split; [done|]. split.
  - apply IpcFacts.length_encode_header. by destruct Hwf.
  - by apply IpcFacts.binary_Read_encoded.
Qed.

Lemma header_write_read_witness :
  binary_Read (encode_header (Header Magic 3 InputEvent) ++ [x7b; x7d; x0a])
  = (inl (Header Magic 3 InputEvent), [x7b; x7d; x0a]).
Proof.
  apply (header_write_read (Header Magic 3 InputEvent) [] [x7b; x7d; x0a]).
  unfold header_wf, InputEvent. simpl. lia.
Defined.

(** X8: any 14 bytes read as a header whose fields are in range, and
    which [binary.Write] encodes to the same 14 bytes. *)
Theorem header_read_write (bs : list byte) :
  length bs = 14%nat →
  header_wf (decode_header bs) ∧ encode_header (decode_header bs) = bs.
Proof.
  intros Hlen.
  do 15 (destruct bs as [|? bs]; try discriminate Hlen).
  unfold decode_header, header_wf, encode_header.
  cbn [take drop hdrMagic hdrLength hdrType length].
  split.
  - split; [done|]. split; apply Uint32_range.
  - rewrite !PutUint32_Uint32. reflexivity.
Qed.

Lemma header_read_write_witness :
  encode_header (decode_header (take 14 sample_bad_frame)) = take 14 sample_bad_frame.
Proof.
  apply (header_read_write (take 14 sample_bad_frame)). reflexivity.
Defined.

(** *** Messages *)

Lemma succeeds_run h p : succeeds h → (run_handler h p).1 = None.
Proof.
  revert p. induction h as [err|n k IH]; intros p Hs; [done|].
  simpl. destruct (Limited_Read n p) as [[bs e] p']. apply IH, Hs.
Qed.

Lemma frame_frameable msg s f :
  frameable msg →
  ReadMessage (frame msg ++ s) f
  = Outcome (run_handler (f msg.1) (Limited (msg.2 ++ s) (Z.of_nat (length msg.2)))).1
            s [msg].
Proof.
  intros [Ht Hl]. destruct msg as [t b]. unfold frame. cbn [fst snd] in *.
  rewrite <- app_assoc.
  rewrite IpcFacts.ReadMessage_written by (rewrite ?length_app; lia).
  rewrite Nat2Z.id. by rewrite take_app_length, drop_app_length.
Qed.

(** X9: [WriteEmptyMessage] appends exactly the 14-byte header with
    length 0 to a buffer, and [ReadMessage] on it calls the handler with
    the type code written and an empty payload reader, leaving the
    stream right after the header. *)
Theorem empty_message_roundtrip (t : MessageType) (buf s : list byte)
    (f : MessageHandler) :
  0 ≤ t < 2 ^ 32 →
  WriteEmptyMessage buf t = (buf ++ frame (t, []), None)
  ∧ length (frame (t, [])) = 14%nat
  ∧ ReadMessage (frame (t, []) ++ s) f
    = Outcome (run_handler (f t) (Limited s 0)).1 s [(t, [])].
Proof.
  intros Ht. split; [|split].
  - unfold WriteEmptyMessage, frame, binary_Write, Write, buffer_Writer.
    cbn [fst snd length Z.of_nat]. by rewrite app_nil_r.
  - reflexivity.
  - by rewrite frame_frameable by (split; simpl; lia).
Qed.

Lemma empty_message_roundtrip_witness :
  calls (ReadMessage (WriteEmptyMessage ([] : list byte) GET_INPUTS).1 sample_handler)
  = [(GET_INPUTS, [])].
Proof.
  destruct (empty_message_roundtrip GET_INPUTS [] [] sample_handler) as (-> & _ & H).
  - unfold GET_INPUTS. lia.
  - simpl fst. rewrite app_nil_r in H. by rewrite H.
Defined.

(** X10: [WriteJSONMessage] on a buffer that already holds bytes appends
    one frame to it, the 14-byte header for the encoding's length and
    type code and then the encoding, when the encoding is shorter than
    2^32 bytes. *)
Theorem WriteJSONMessage_appends_frame {V : Type}
    (marshal : V → list byte + error) (buf b : list byte) (t : MessageType) (v : V) :
  marshal v = inl b → Z.of_nat (length b) < 2 ^ 32 →
  WriteJSONMessage marshal buf t v = (buf ++ frame (t, b), None)
  ∧ length (frame (t, b)) = (14 + length b)%nat.
Proof.
  intros Hm Hlen. unfold WriteJSONMessage. rewrite Hm.
  unfold binary_Write, Write, buffer_Writer, frame, uint32.
  rewrite Z.mod_small by lia. cbn [fst snd].
  rewrite decide_False by lia. split.
  - by rewrite <- app_assoc.
  - by rewrite length_app.
Qed.

Lemma WriteJSONMessage_appends_frame_witness :
  WriteJSONMessage marshal_raw (frame (GET_INPUTS, [])) SUBSCRIBE [x7b; x7d]
  = (frames [(GET_INPUTS, []); (SUBSCRIBE, [x7b; x7d])], None).
Proof.
  destruct (WriteJSONMessage_appends_frame marshal_raw (frame (GET_INPUTS, []))
              [x7b; x7d] SUBSCRIBE [x7b; x7d]) as [-> _].
  - reflexivity.
  - simpl. lia.
  - reflexivity.
Defined.

(** X11: a stream made of the frames of messages a header can describe,
    read by the loop of [watchLayouts] with a handler that returns no
    error, gives the handler each message in order, its type code and
    exactly its payload, and the loop then ends on [io.EOF]; more fuel
    than there are messages changes nothing. *)
Theorem read_loop_delivers_frames (msgs : list (MessageType * list byte))
    (f : MessageHandler) (fuel : nat) :
  Forall frameable msgs → (∀ t, succeeds (f t)) →
  (length msgs < fuel)%nat →
  read_loop fuel (frames msgs) f = (msgs, Some EOF).
Proof.
  intros Hmsgs Hf. revert fuel.
  induction Hmsgs as [|msg msgs Hmsg Hmsgs IH]; intros fuel Hfuel;
    (destruct fuel as [|fuel]; [simpl in Hfuel; lia|]).
  - reflexivity.
  - unfold frames. rewrite fmap_cons. cbn [concat read_loop].
    fold (frames msgs). rewrite frame_frameable by done.
    cbn [result rest calls]. rewrite succeeds_run by done.
    rewrite IH by (simpl in Hfuel; lia). reflexivity.
Qed.

Lemma read_loop_delivers_frames_witness :
  read_loop 3 (frames [(SUBSCRIBE, [x7b; x7d]); (GET_INPUTS, [x5b; x5d])])
            (λ _, HRead 1 (λ _ _, HReturn None))
  = ([(SUBSCRIBE, [x7b; x7d]); (GET_INPUTS, [x5b; x5d])], Some EOF).
Proof.
  apply (read_loop_delivers_frames
           [(SUBSCRIBE, [x7b; x7d]); (GET_INPUTS, [x5b; x5d])]
           (λ _, HRead 1 (λ _ _, HReturn None)) 3).
  - repeat constructor; simpl; unfold SUBSCRIBE, GET_INPUTS; lia.
  - intros t bs e. reflexivity.
  - simpl. lia.
Defined.

(** Whatever the stream holds after a header with the right magic, the
    handler is called once on what the limited reader can deliver and
    the stream is left after the declared payload, or at its end. *)
Lemma ReadMessage_after_header_any s s' h f :
  binary_Read s = (inl h, s') → hdrMagic h = Magic → 0 ≤ hdrLength h →
  ReadMessage s f
  = Outcome (run_handler (f (hdrType h)) (Limited s' (hdrLength h))).1
            (drop (Z.to_nat (hdrLength h)) s')
            [(hdrType h, take (Z.to_nat (hdrLength h)) s')].
Proof.
  intros Hread Hmagic HL. unfold ReadMessage. rewrite Hread.
  rewrite decide_False by (intros Hne; by apply Hne).
  set (p := Limited s' (hdrLength h)).
  destruct (IpcFacts.run_handler_advance (f (hdrType h)) p HL)
    as (k & Hk1 & Hk2 & Hk3).
  destruct (run_handler (f (hdrType h)) p) as [ferr p1]. simpl in Hk3. subst p1.
  simpl in Hk1, Hk2.
  rewrite IpcFacts.Copy_Discard_advance by (simpl; lia).
  rewrite IpcFacts.advance_advance. cbn [fst R N advance]. rewrite length_drop.
  f_equal; [by destruct ferr|].
  subst p. cbn [R N].
  destruct (decide (Z.to_nat (hdrLength h) ≤ length s')%nat).
  - f_equal. lia.
  - by rewrite !drop_ge by lia.
Qed.

(** X12: when the stream ends inside the payload a header with the right
    magic declares, [ReadMessage] still calls the handler, on the bytes
    that did come; it consumes them all and returns the handler's result,
    with no error of its own for the missing bytes. *)
Theorem truncated_payload_is_not_reported (s : stream) (f : MessageHandler) :
  let h := decode_header (take header_size s) in
  (header_size ≤ length s)%nat → hdrMagic h = Magic →
  (length s < header_size + Z.to_nat (hdrLength h))%nat →
  ReadMessage s f
  = Outcome (run_handler (f (hdrType h))
                         (Limited (drop header_size s) (hdrLength h))).1
            [] [(hdrType h, drop header_size s)].
Proof.
  intros h Hlen Hmagic Hshort.
  rewrite (ReadMessage_after_header_any s (drop header_size s) h f).
  - rewrite (drop_ge (drop header_size s)), (take_ge (drop header_size s))
      by (rewrite length_drop; lia).
    done.
  - by apply IpcFacts.binary_Read_long.
  - done.
  - apply IpcFacts.Uint32_nonneg.
Qed.

Lemma truncated_payload_is_not_reported_witness :
  ReadMessage (take 16 sample_frame) (λ _, HReturn None)
  = Outcome None [] [(SUBSCRIBE, [x7b; x7d])].
Proof.
  rewrite (truncated_payload_is_not_reported (take 16 sample_frame) (λ _, HReturn None)).
  - reflexivity.
  - vm_compute. lia.
  - vm_compute. reflexivity.
  - vm_compute. lia.
Defined.

End IpcMore.

(** ** The layout monitor *)

Module WatchFacts.
Import Registry Ipc Watch Lines.
Import Stdlib.Init.Byte.
Local Open Scope list_scope.

Lemma del_prevLayout m id : prevLayout (del m id) = prevLayout m.
Proof. unfold del. case_decide; [done|]. by destruct (kbds m). Qed.

Lemma set_prevLayout m id l : prevLayout (set m id l) = prevLayout m.
Proof.
  unfold set. case_decide; [apply del_prevLayout|]. by repeat case_decide.
Qed.

Lemma set_all_prevLayout m p : prevLayout (set_all m p) = prevLayout m.
Proof.
  revert m. induction p as [|i p IH]; intros m; [done|].
  unfold set_all in *. simpl. by rewrite IH, set_prevLayout.
Qed.

Section MonitorFacts.
Context {W : Type} `{Writer W}.
Variable decode_success : list byte → bool + error.
Variable decode_inputs : list byte → list InputDevice + error.
Variable decode_event : list byte → InputEventPayload + error.

Local Abbreviation processMsg :=
  (processMsg decode_success decode_inputs decode_event).
Local Abbreviation watch_round :=
  (watch_round decode_success decode_inputs decode_event).
Local Abbreviation watch_rounds :=
  (watch_rounds decode_success decode_inputs decode_event).

Lemma processMsg_prevLayout self s t payload :
  prevLayout (processMsg self s t payload).1.1 = prevLayout self.
Proof.
  unfold Watch.processMsg. repeat case_decide.
  - destruct (decode_success payload) as [[|]|]; simpl; try done.
    by destruct (WriteEmptyMessage s GET_INPUTS).
  - destruct (decode_inputs payload); simpl; [apply set_all_prevLayout | done].
  - destruct (decode_event payload); simpl; [|done].
    case_decide; simpl; [apply del_prevLayout | apply set_prevLayout].
  - done.
Qed.

(** X14: a message [processMsg] fails on leaves the registry as it was;
    a message of a type code other than the three handled is ignored,
    payload undecoded: no error, registry and socket unchanged; and only
    a [SUBSCRIBE] reply makes it write to the socket. *)
Theorem processMsg_failure_keeps_registry (self : monitor) (s : W)
    (t : MessageType) (payload : list byte) :
  (is_Some (processMsg self s t payload).2 → (processMsg self s t payload).1.1 = self)
  ∧ (t ≠ SUBSCRIBE → (processMsg self s t payload).1.2 = s)
  ∧ (t ≠ SUBSCRIBE → t ≠ GET_INPUTS → t ≠ InputEvent →
     processMsg self s t payload = (self, s, None)).
Proof.
  unfold Watch.processMsg. split; [|split].
  - repeat case_decide.
    + destruct (decode_success payload) as [[|]|]; simpl; try done.
      by destruct (WriteEmptyMessage s GET_INPUTS).
    + destruct (decode_inputs payload); simpl; [by intros [? ?]|done].
    + destruct (decode_event payload); simpl; [|done].
      case_decide; by intros [? ?].
    + done.
  - intros Ht. rewrite decide_False by done. repeat case_decide.
    + by destruct (decode_inputs payload).
    + destruct (decode_event payload); [by case_decide|done].
    + done.
  - intros H1 H2 H3. by rewrite !decide_False by done.
Qed.

(** X15: the layouts [watchLayouts] sends on its channel never repeat:
    each differs from the one sent before it, and the first from the
    [prevLayout] the monitor started with. *)
Theorem notifications_never_repeat (self : monitor) (s : W)
    (msgs : list (MessageType * list byte)) :
  changing (prevLayout self) (watch_rounds self s msgs).1.
Proof.
  revert self s. induction msgs as [|msg msgs IH]; intros self s; [done|].
  cbn [Watch.watch_rounds]. unfold Watch.watch_round.
  pose proof (processMsg_prevLayout self s msg.1 msg.2) as Hp.
  destruct (processMsg self s msg.1 msg.2) as [[self' s'] [err|]]; [done|].
  simpl in Hp. unfold publish.
  destruct (decide (prevLayout self' = currentLayout self')) as [E|E].
  - specialize (IH self' s').
    destruct (watch_rounds self' s' msgs) as [out r]. simpl in *.
    by rewrite <- Hp.
  - specialize (IH (Monitor (kbds self') (lastKbd self') (currentLayout self')) s').
    destruct (watch_rounds _ s' msgs) as [out r]. simpl in *.
    split; [|done]. rewrite <- Hp. by intros Heq.
Qed.

End MonitorFacts.

Lemma processMsg_failure_keeps_registry_witness :
  (Watch.processMsg (W := list byte) (λ _, inl true) (λ _, inl [])
     (λ _, inr (ErrExternal "unexpected end of JSON input"))
     (run [OpSet "kbd0" "us"]) [] InputEvent []).1.1
  = run [OpSet "kbd0" "us"].
Proof.
  apply (processMsg_failure_keeps_registry (W := list byte)
           (λ _, inl true) (λ _, inl [])
           (λ _, inr (ErrExternal "unexpected end of JSON input"))
           (run [OpSet "kbd0" "us"]) [] InputEvent []).
  exists (ErrExternal "unexpected end of JSON input"). reflexivity.
Defined.

(** *** The handshake and the first device list *)

(** X16: on a [SUBSCRIBE] reply that decodes to success, [processMsg]
    sends one empty [GET_INPUTS] message, 14 bytes, and leaves the
    registry alone; on one that decodes to failure it returns the
    subscription error with the socket and the registry as they were, and
    the round exits with that error. *)
Theorem subscribe_reply_handshake (decode_success : list byte → bool + error)
    (decode_inputs : list byte → list InputDevice + error)
    (decode_event : list byte → InputEventPayload + error)
    (self : monitor) (buf payload : list byte) (ok : bool) :
  decode_success payload = inl ok →
  (ok = true →
     Watch.processMsg decode_success decode_inputs decode_event
       self buf SUBSCRIBE payload
     = (self, buf ++ frame (GET_INPUTS, []), None)
     ∧ length (frame (GET_INPUTS, [])) = 14)
  ∧ (ok = false →
     Watch.processMsg decode_success decode_inputs decode_event
       self buf SUBSCRIBE payload
     = (self, buf, Some (ErrNew "failed to subscribe to Sway events"))
     ∧ Watch.watch_round decode_success decode_inputs decode_event
         self buf (SUBSCRIBE, payload)
       = Exited 1 ("Sway IPC failure: failed to subscribe to Sway events" ++ LF)).
Proof.
  intros Hd. split; intros ->.
  - split; [|reflexivity].
    unfold Watch.processMsg. rewrite decide_True by done. rewrite Hd. simpl.
    unfold frame, binary_Write, Write, buffer_Writer. simpl.
    reflexivity.
  - assert (E : Watch.processMsg decode_success decode_inputs decode_event
                  self buf SUBSCRIBE payload
                = (self, buf, Some (ErrNew "failed to subscribe to Sway events"))).
    { unfold Watch.processMsg. rewrite decide_True by done. by rewrite Hd. }
    split; [exact E|].
    unfold Watch.watch_round. cbn [fst snd]. by rewrite E.
Qed.

Lemma subscribe_reply_handshake_witness :
  Watch.processMsg decode_reply (λ _, inl []) (λ _, inr (ErrExternal "unused"))
    newMonitor (frame (SUBSCRIBE, [])) SUBSCRIBE reply_success
  = (newMonitor, frame (SUBSCRIBE, []) ++ frame (GET_INPUTS, []), None)
  ∧ Watch.processMsg decode_reply (λ _, inl []) (λ _, inr (ErrExternal "unused"))
      newMonitor (frame (SUBSCRIBE, [])) SUBSCRIBE reply_failure
    = (newMonitor, frame (SUBSCRIBE, []),
       Some (ErrNew "failed to subscribe to Sway events")).
Proof.
  split.
  - apply (subscribe_reply_handshake decode_reply (λ _, inl [])
             (λ _, inr (ErrExternal "unused"))
             newMonitor (frame (SUBSCRIBE, [])) reply_success true);
      reflexivity.
  - apply (subscribe_reply_handshake decode_reply (λ _, inl [])
             (λ _, inr (ErrExternal "unused"))
             newMonitor (frame (SUBSCRIBE, [])) reply_failure false);
      reflexivity.
Defined.

Lemma set_all_run devices m :
  set_all m devices
  = foldl apply_op m ((λ d, OpSet (Identifier d) (XkbActiveLayoutName d)) <$> devices).
Proof.
  revert m. induction devices as [|d devices IH]; intros m; [done|].
  unfold set_all in *. simpl. by rewrite IH.
Qed.

Lemma spec_run_distinct devices (s : list (string * string)) :
  NoDup (s.*1 ++ (Identifier <$> devices)) →
  Forall (λ d, XkbActiveLayoutName d ≠ "") devices →
  foldl RegistrySpec.apply_op s
    ((λ d, OpSet (Identifier d) (XkbActiveLayoutName d)) <$> devices)
  = s ++ ((λ d, (Identifier d, XkbActiveLayoutName d)) <$> devices).
Proof.
  revert s. induction devices as [|d devices IH]; intros s Hnd Hl.
  - by rewrite app_nil_r.
  - inversion Hl as [|? ? Hd Hl']; subst. simpl.
    assert (Hnotin : Identifier d ∉ s.*1).
    { apply NoDup_app in Hnd as (_ & Hdisj & _). intros Hin.
      apply (Hdisj _ Hin). simpl. left. }
    unfold RegistrySpec.set at 1. rewrite decide_False by done.
    rewrite decide_False by (by rewrite RegistryFacts.find_None).
    rewrite RegistryMore.remove_notin by done.
    rewrite IH; [by rewrite <- app_assoc | | done].
    rewrite fmap_app. simpl. rewrite <- app_assoc. done.
Qed.

(** X17: on a monitor just created, a [GET_INPUTS] reply listing devices
    with distinct identifiers, all with a layout, makes the monitor
    report the layout of the device listed last, and the round sends
    that layout on the channel. *)
Theorem first_inputs_report_last_device
    (decode_success : list byte → bool + error)
    (decode_inputs : list byte → list InputDevice + error)
    (decode_event : list byte → InputEventPayload + error)
    (buf payload : list byte) (devices : list InputDevice) (d : InputDevice) :
  decode_inputs payload = inl (devices ++ [d]) →
  NoDup (Identifier <$> (devices ++ [d])) →
  Forall (λ d, XkbActiveLayoutName d ≠ "") (devices ++ [d]) →
  ∃ self,
    Watch.watch_round decode_success decode_inputs decode_event
      newMonitor buf (GET_INPUTS, payload)
    = Looping self buf (Some (XkbActiveLayoutName d))
    ∧ lastKbd self = Identifier d
    ∧ currentLayout self = XkbActiveLayoutName d.
Proof.
  intros Hd Hnd Hl.
  set (ops := (λ d, OpSet (Identifier d) (XkbActiveLayoutName d)) <$> (devices ++ [d])).
  assert (Hsets : Forall RegistrySpec.sets_layout ops).
  { subst ops. apply Forall_fmap. eapply Forall_impl; [exact Hl|]. by intros ?. }
  destruct (RegistryFacts.foldl_sets_agree ops newMonitor []) as [Hag Hlast];
    try done.
  assert (Hspec : foldl RegistrySpec.apply_op [] ops
                  = (λ d, (Identifier d, XkbActiveLayoutName d)) <$> (devices ++ [d])).
  { subst ops. by rewrite (spec_run_distinct _ []). }
  rewrite Hspec in Hag, Hlast. rewrite fmap_app in Hag, Hlast. simpl in Hag, Hlast.
  assert (Hcur : currentLayout (foldl apply_op newMonitor ops) = XkbActiveLayoutName d).
  { unfold currentLayout. rewrite Hag, Hlast.
    rewrite <- (RegistryFacts.spec_current_at_tail
                  (((λ d, (Identifier d, XkbActiveLayoutName d)) <$> devices)
                   ++ [(Identifier d, XkbActiveLayoutName d)])).
    - unfold RegistrySpec.currentLayout. by rewrite last_snoc.
    - rewrite fmap_app, <- list_fmap_compose. simpl.
      rewrite fmap_app in Hnd. exact Hnd. }
  unfold Watch.watch_round, Watch.processMsg. simpl.
  rewrite Hd. rewrite set_all_run. fold ops. unfold publish. rewrite Hcur.
  rewrite decide_False; cycle 1.
  { pose proof (set_all_prevLayout newMonitor (devices ++ [d])) as Hp.
    rewrite set_all_run in Hp. fold ops in Hp. rewrite Hp. simpl.
    apply Forall_app in Hl as [_ Hl]. inversion Hl; subst. by intros Heq. }
  eexists. split; [reflexivity|]. simpl. split.
  - by rewrite Hlast, RegistryFacts.mostRecentId_snoc.
  - unfold currentLayout in *. simpl. exact Hcur.
Qed.

Lemma first_inputs_report_last_device_witness :
  ∃ self,
    Watch.watch_round (λ _, inl true)
      (λ _, inl [Device "kbd0" "us"; Device "kbd1" "de"])
      (λ _, inl (EventPayload "" (Device "" "")))
      newMonitor ([] : list byte) (GET_INPUTS, [x5b; x5d])
    = Looping self [] (Some "de").
Proof.
  destruct (first_inputs_report_last_device (λ _, inl true)
              (λ _, inl [Device "kbd0" "us"; Device "kbd1" "de"])
              (λ _, inl (EventPayload "" (Device "" "")))
              [] [x5b; x5d] [Device "kbd0" "us"] (Device "kbd1" "de"))
    as (self & Hr & _).
  - reflexivity.
  - simpl. apply NoDup_cons_2; [|apply NoDup_singleton].
    intros Hin. apply list_elem_of_singleton in Hin. discriminate.
  - repeat constructor; discriminate.
  - by exists self.
Defined.

End WatchFacts.

(** ** The status loop, the command line and the ticker *)

Module MainMore.
Import Main Lines.
Local Open Scope list_scope.

Section LoopFacts.
Context {Time : Type}.
Variable Format : Time → string → string.
Variable WriteString : string → nat * option error.

Local Abbreviation iterate := (iterate Format WriteString).
Local Abbreviation run_loop := (run_loop Format WriteString).
Local Abbreviation candidate := (candidate Format).

(** X18: whatever the events, the format and the behaviour of standard
    output, the status loop never passes to [io.WriteString] the string
    it passed last: every write differs from the one before it, and the
    first from the initial [prevStatus]. *)
Theorem writes_never_repeat (format : string) (st : loop_state)
    (evs : list event) :
  changing (prevStatus st) (run_loop format st evs).1.
Proof.
  revert st. induction evs as [|ev evs IH]; intros st; [done|].
  cbn [Main.run_loop]. unfold Main.iterate.
  destruct (decide (candidate format st ev ≠ prevStatus st)) as [Hne|Heq].
  - destruct (WriteString (candidate format st ev)) as [n [e|]]; [done|].
    case_decide; [done|].
    match goal with |- context [run_loop format ?st' evs] =>
      specialize (IH st'); destruct (run_loop format st' evs) as [ws r] end.
    simpl in *. done.
  - match goal with |- context [run_loop format ?st' evs] =>
      specialize (IH st'); destruct (run_loop format st' evs) as [ws r] end.
    simpl in *. done.
Qed.

Lemma statuses_head format st ev evs :
  statuses Format format (layout st) (ev :: evs)
  = candidate format st ev
    :: statuses Format format
         (match ev with LayoutEvent l _ => l | Tick _ => layout st end) evs.
Proof. by destruct ev. Qed.

(** X19: when standard output takes every write in full, the loop runs
    through all events and writes exactly the status strings it computes,
    each the layout received last followed by the formatted time, less
    those equal to the string written before them. *)
Theorem writes_are_squeezed_statuses (format : string) (st : loop_state)
    (evs : list event) :
  (∀ c, ∃ n, WriteString c = (n, None) ∧ (String.length c ≤ n)%nat) →
  (run_loop format st evs).1
  = squeeze (prevStatus st) (statuses Format format (layout st) evs)
  ∧ is_Some (run_loop format st evs).2.
Proof.
  intros Hok. revert st. induction evs as [|ev evs IH]; intros st; [by split|].
  rewrite statuses_head. cbn [Main.run_loop squeeze]. unfold Main.iterate.
  destruct (decide (candidate format st ev ≠ prevStatus st)) as [Hne|Heq].
  - rewrite decide_False by done.
    destruct (Hok (candidate format st ev)) as (n & -> & Hn).
    rewrite decide_False by lia.
    match goal with |- context [run_loop format ?st' evs] =>
      destruct (IH st') as [IH1 IH2]; destruct (run_loop format st' evs) as [ws r] end.
    simpl in *. by rewrite IH1.
  - rewrite decide_True by (by destruct (decide (candidate format st ev = prevStatus st))).
    match goal with |- context [run_loop format ?st' evs] =>
      destruct (IH st') as [IH1 IH2]; destruct (run_loop format st' evs) as [ws r] end.
    simpl in *. by rewrite IH1.
Qed.

End LoopFacts.

Lemma writes_are_squeezed_statuses_witness :
  (run_loop (Time := Z) Format_literal WriteString_ok (" now" ++ LF)%string loop_init
     [Tick 0%Z; LayoutEvent "de" 1%Z; Tick 2%Z; LayoutEvent "us" 3%Z]).1
  = [(" now" ++ LF)%string; ("de now" ++ LF)%string; ("us now" ++ LF)%string].
Proof.
  destruct (writes_are_squeezed_statuses (Time := Z) Format_literal WriteString_ok
              (" now" ++ LF)%string loop_init
              [Tick 0%Z; LayoutEvent "de" 1%Z; Tick 2%Z; LayoutEvent "us" 3%Z])
    as [-> _].
  - intros c. exists (String.length c). split; [reflexivity | lia].
  - vm_compute. reflexivity.
Defined.

End MainMore.

Module ArgsFacts.
Import Args.
Local Open Scope Z_scope.
Local Open Scope list_scope.

Section ParsingFacts.
Variable ToLower : string → string.

Local Abbreviation interval_of := (interval_of ToLower).
Local Abbreviation parse := (parse ToLower).
Local Abbreviation and_then := (and_then ToLower).
Local Abbreviation configure := (configure ToLower).

Lemma interval_of_selectable ti d : interval_of ti = Some d → selectable d.
Proof.
  unfold Args.interval_of, selectable. repeat case_decide; intros [= <-]; auto.
Qed.

Lemma parse_app_bounded (n : nat) :
  ∀ args i f rest, (length args ≤ n)%nat →
    ¬ missing_value (parse args i f) →
    parse (args ++ rest) i f = and_then (parse args i f) rest.
Proof.
  induction n as [|n IH]; intros args i f rest Hlen Hmiss.
  { destruct args; [done | simpl in Hlen; lia]. }
  destruct args as [|a tl]; [done|].
  cbn [app Args.parse] in *.
  destruct (decide (a = "-h" ∨ a = "--help")); [done|].
  destruct (decide (a = "-t")).
  - destruct tl as [|ti tl]; [exfalso; apply Hmiss; by eexists|].
    cbn [app]. destruct (interval_of ti); [|done].
    apply IH; [simpl in Hlen; lia | done].
  - destruct (decide (a = "-f")); [|done].
    destruct tl as [|v tl]; [exfalso; apply Hmiss; by eexists|].
    cbn [app]. apply IH; [simpl in Hlen; lia | done].
Qed.

Lemma parse_selects (n : nat) :
  ∀ args i f i' f', (length args ≤ n)%nat → selectable i →
    parse args i f = Options i' f' →
    selectable i' ∧ (f' = f ∨ f' ∈ args).
Proof.
  induction n as [|n IH]; intros args i f i' f' Hlen Hi.
  { destruct args; [|simpl in Hlen; lia]. intros [= <- <-]. auto. }
  destruct args as [|a tl]; [intros [= <- <-]; auto|].
  cbn [Args.parse].
  destruct (decide (a = "-h" ∨ a = "--help")); [done|].
  destruct (decide (a = "-t")).
  - destruct tl as [|ti tl]; [done|].
    destruct (interval_of ti) as [d|] eqn:Ed; [|done].
    intros Hp. destruct (IH tl d f i' f') as [Hs Hf];
      [simpl in Hlen; lia | by eapply interval_of_selectable | done |].
    split; [done|]. destruct Hf as [->|Hin]; [by left|].
    right. by do 2 apply list_elem_of_further.
  - destruct (decide (a = "-f")); [|done].
    destruct tl as [|v tl]; [done|].
    intros Hp. destruct (IH tl i v i' f') as [Hs Hf];
      [simpl in Hlen; lia | done | done |].
    split; [done|]. right. destruct Hf as [->|Hin].
    + apply list_elem_of_further, list_elem_of_here.
    + by do 2 apply list_elem_of_further.
Qed.

(** X20: the options are taken from left to right: the arguments that
    follow a first part parsed without a missing value go on from the
    interval and format it selected, and after a first part that ended
    in [-h], an unknown parameter or an invalid interval nothing that
    follows is looked at. *)
Theorem parse_left_to_right (args rest : list string) (i : Z) (f : string) :
  ¬ missing_value (parse args i f) →
  parse (args ++ rest) i f = and_then (parse args i f) rest.
Proof. intros Hm. by apply (parse_app_bounded (length args)). Qed.

(** X21: when option parsing succeeds, the ticker interval is a second,
    a minute or an hour, never more, the format is not empty, and it is
    either an argument that was given or the default for the interval
    selected: date only for [day], which ticks every hour. *)
Theorem configure_interval_and_format (args : list string) (i : Z) (f : string) :
  configure args = Options i f →
  (i = Second ∨ i = Minute ∨ i = Hour) ∧ 0 < i ≤ Hour ∧ f ≠ ""
  ∧ ∃ i0 f0, parse args Minute "" = Options i0 f0
             ∧ selectable i0 ∧ i = Z.min i0 Hour
             ∧ (f0 ≠ "" → f = f0 ∧ f ∈ args)
             ∧ (f0 = "" → i0 = 24 * Hour → f = "2006-01-02").
Proof.
  unfold Args.configure.
  destruct (parse args Minute "") as [| |i0 f0] eqn:Hp; try done.
  intros [= <- <-].
  destruct (parse_selects (length args) args Minute "" i0 f0) as [Hsel Hf];
    [done | right; by left | done |].
  assert (Hc : clamp i0 = Z.min i0 Hour).
  { unfold clamp. case_decide; lia. }
  assert (Hfmt : default_format i0 f0 ≠ "").
  { unfold default_format. case_decide as Hl; [|by rewrite strlen_zero in Hl].
    destruct Hsel as [ -> | [ -> | [ -> | -> ] ] ]; vm_compute; discriminate. }
  split; [|split; [|split; [done|]]].
  - rewrite Hc. destruct Hsel as [ -> | [ -> | [ -> | -> ] ] ]; vm_compute; auto.
  - rewrite Hc. destruct Hsel as [ -> | [ -> | [ -> | -> ] ] ]; vm_compute; split; congruence.
  - exists i0, f0. split; [done|]. split; [done|]. split; [done|]. split.
    + intros Hne. unfold default_format.
      rewrite decide_False by (by rewrite strlen_zero).
      split; [done|]. by destruct Hf as [->|?].
    + intros -> ->. reflexivity.
Qed.

(** X22: a later option overrides an earlier one of its kind, and a last
    [-f] with an empty value brings back the default format of the
    interval selected, whatever format was given before. *)
Theorem later_options_override (args : list string) (i0 : Z) (f0 v ti : string) (d : Z) :
  parse args Minute "" = Options i0 f0 →
  configure (args ++ ["-f"; v]) = Options (clamp i0) (default_format i0 v)
  ∧ (interval_of ti = Some d →
     configure (args ++ ["-t"; ti]) = Options (clamp d) (default_format d f0)).
Proof.
  intros Hp.
  assert (Hm : ¬ missing_value (parse args Minute "")).
  { rewrite Hp. by intros [a [=]]. }
  unfold Args.configure.
  rewrite !(parse_app_bounded (length args)) by done. rewrite Hp.
  split; [reflexivity|]. intros Hd. cbn [Args.and_then Args.parse].
  rewrite decide_False by (intros [?|?]; discriminate).
  rewrite decide_True by done. by rewrite Hd.
Qed.

End ParsingFacts.

Lemma parse_left_to_right_witness :
  parse ToLower_ascii (["-t"; "Day"] ++ ["-x"; "-h"]) Minute ""
  = Failed "unknown parameter: -x".
Proof.
  rewrite (parse_left_to_right ToLower_ascii ["-t"; "Day"] ["-x"; "-h"] Minute "").
  - vm_compute. reflexivity.
  - vm_compute. intros [a Ha]. discriminate.
Defined.

Lemma configure_interval_and_format_witness :
  configure ToLower_ascii ["-t"; "DAY"] = Options Hour "2006-01-02"
  ∧ 0 < Hour ≤ Hour.
Proof.
  assert (E : configure ToLower_ascii ["-t"; "DAY"] = Options Hour "2006-01-02")
    by (vm_compute; reflexivity).
  split; [exact E|].
  by destruct (configure_interval_and_format ToLower_ascii ["-t"; "DAY"]
                 Hour "2006-01-02" E) as (_ & H & _).
Defined.

Lemma later_options_override_witness :
  configure ToLower_ascii (["-f"; "15:04"; "-t"; "s"] ++ ["-f"; ""])
  = Options Second "2006-01-02 15:04:05".
Proof.
  destruct (later_options_override ToLower_ascii ["-f"; "15:04"; "-t"; "s"]
              Second "15:04" "" "s" Second) as [-> _].
  - vm_compute. reflexivity.
  - vm_compute. reflexivity.
Defined.

(** *** The ticker *)

(** X23: for a positive interval the ticker always sleeps, for no longer
    than the interval, and the sleep ends on the next multiple of the
    interval after the time it sent. *)
Theorem timer_sleeps_to_boundary (t interval : Z) :
  0 < interval →
  0 < dt t interval ≤ interval
  ∧ (t + dt t interval) mod interval = 0
  ∧ t + dt t interval = interval * (t / interval + 1)
  ∧ timer_round t interval = (t, Some (dt t interval)).
Proof.
  intros Hi. unfold timer_round, dt, Truncate.
  rewrite !decide_False by lia.
  pose proof (Z.mod_pos_bound t interval Hi) as Hm.
  pose proof (Z.div_mod t interval ltac:(lia)) as Hd.
  assert (E : t + (t - t mod interval + interval - t) = interval * (t / interval + 1))
    by lia.
  split; [lia|]. split; [|split; [done|]].
  - rewrite E, Z.mul_comm. apply Z.mod_mul. lia.
  - by rewrite decide_True by lia.
Qed.

Lemma timer_sleeps_to_boundary_witness :
  timer_round (90 * Second + 250) Minute = (90 * Second + 250, Some (30 * Second - 250)).
Proof.
  destruct (timer_sleeps_to_boundary (90 * Second + 250) Minute) as (_ & _ & _ & ->).
  - vm_compute. reflexivity.
  - vm_compute. reflexivity.
Defined.

End ArgsFacts.
